(** * Lobster fishery simulation: a shallow embedding of [agent.py] and [model.py]

    The simulation is a Mesa agent-based model.  Five kinds of agent
    ([Ocean], [Lobster], [Boat], [Home], [Heat_Spot]) live on a bounded
    [MultiGrid] and are stepped once per tick by a [SimultaneousActivation]
    scheduler owned by the [World].

    Python objects are shared and mutated in place: the same [Boat] is
    referenced from a grid cell, from the scheduler and from the loop that
    banks its catch.  The embedding therefore keeps one store of objects,
    keyed by [unique_id], and lets the grid and the scheduler hold ids.
    Every attribute access of the source is a read of the store and every
    assignment a write.  Randomness is a tape of integers consumed by the
    calls of the [random] module; exceptions and the unbounded loops of the
    source are the two other outcomes of a computation. *)

From stdpp Require Import gmap list strings.
From Stdlib Require Import ZArith QArith Lia.

Open Scope Z_scope.

(** ** Data model *)

(** A grid position [(x, y)]; the row is the second component. *)
Abbreviation pos := (Z * Z)%type.

Inductive lobster_state := Wander | Caught.
Inductive boat_state := Search | Return.
Inductive boat_size := Small | Big.

#[global] Instance lobster_state_eq_dec : EqDecision lobster_state.
Proof. solve_decision. Defined.
#[global] Instance boat_state_eq_dec : EqDecision boat_state.
Proof. solve_decision. Defined.
#[global] Instance boat_size_eq_dec : EqDecision boat_size.
Proof. solve_decision. Defined.

(** [class Ocean]: a passive marker. *)
Record Ocean := mkOcean { o_pos : pos }.

(** [class Lobster].  [l_schedule] is the private
    [SimultaneousActivation(self.models)] every lobster builds for itself:
    the list of ids registered in it (nothing ever registers). *)
Record Lobster := mkLobster {
  l_pos : pos;
  l_state : lobster_state;
  l_moore : bool;
  l_timer : Z;
  l_count : Z;
  l_counts : list Z;
  l_schedule : list Z;
  l_turn : Z
}.

(** [class Boat].  [b_home] is the id of the shared [Home] object. *)
Record Boat := mkBoat {
  b_home : Z;
  b_pos : pos;
  b_size : boat_size;
  b_state : boat_state;
  b_moore : bool;
  b_amount : Z;
  b_turn : Z;
  b_unable : bool
}.

(** [class Home]. *)
Record Home := mkHome {
  h_pos : pos;
  h_amount : Z;
  h_size : string
}.

(** [class Heat_Spot]. *)
Record Heat_Spot := mkHeat_Spot {
  hs_moore : bool;
  hs_pos : pos;
  hs_count : Z;
  hs_turn : Z;
  hs_tracks : list Z
}.

Inductive agent :=
| AOcean (o : Ocean)
| ALobster (l : Lobster)
| ABoat (b : Boat)
| AHome (h : Home)
| AHeat_Spot (s : Heat_Spot).

(** The class of an object, what [type(n)] tests. *)
Inductive kind := KOcean | KLobster | KBoat | KHome | KHeat_Spot.

#[global] Instance kind_eq_dec : EqDecision kind.
Proof. solve_decision. Defined.

Definition kind_of (a : agent) : kind :=
  match a with
  | AOcean _ => KOcean
  | ALobster _ => KLobster
  | ABoat _ => KBoat
  | AHome _ => KHome
  | AHeat_Spot _ => KHeat_Spot
  end.

Definition agent_pos (a : agent) : pos :=
  match a with
  | AOcean o => o_pos o
  | ALobster l => l_pos l
  | ABoat b => b_pos b
  | AHome h => h_pos h
  | AHeat_Spot s => hs_pos s
  end.

Definition Lobster_set_pos (l : Lobster) (p : pos) : Lobster :=
  mkLobster p (l_state l) (l_moore l) (l_timer l) (l_count l) (l_counts l)
            (l_schedule l) (l_turn l).

Definition Lobster_set_state (l : Lobster) (s : lobster_state) : Lobster :=
  mkLobster (l_pos l) s (l_moore l) (l_timer l) (l_count l) (l_counts l)
            (l_schedule l) (l_turn l).

Definition Lobster_set_turn (l : Lobster) (n : Z) : Lobster :=
  mkLobster (l_pos l) (l_state l) (l_moore l) (l_timer l) (l_count l) (l_counts l)
            (l_schedule l) n.

Definition Lobster_set_count (l : Lobster) (n : Z) : Lobster :=
  mkLobster (l_pos l) (l_state l) (l_moore l) (l_timer l) n (l_counts l)
            (l_schedule l) (l_turn l).

Definition Lobster_set_counts (l : Lobster) (c : list Z) : Lobster :=
  mkLobster (l_pos l) (l_state l) (l_moore l) (l_timer l) (l_count l) c
            (l_schedule l) (l_turn l).

Definition Lobster_set_schedule (l : Lobster) (s : list Z) : Lobster :=
  mkLobster (l_pos l) (l_state l) (l_moore l) (l_timer l) (l_count l) (l_counts l)
            s (l_turn l).

Definition Heat_Spot_set_pos (s : Heat_Spot) (p : pos) : Heat_Spot :=
  mkHeat_Spot (hs_moore s) p (hs_count s) (hs_turn s) (hs_tracks s).

Definition Heat_Spot_set_count (s : Heat_Spot) (n : Z) : Heat_Spot :=
  mkHeat_Spot (hs_moore s) (hs_pos s) n (hs_turn s) (hs_tracks s).

Definition Heat_Spot_set_turn (s : Heat_Spot) (n : Z) : Heat_Spot :=
  mkHeat_Spot (hs_moore s) (hs_pos s) (hs_count s) n (hs_tracks s).

Definition Heat_Spot_set_tracks (s : Heat_Spot) (t : list Z) : Heat_Spot :=
  mkHeat_Spot (hs_moore s) (hs_pos s) (hs_count s) (hs_turn s) t.

Definition Home_set_pos (h : Home) (p : pos) : Home :=
  mkHome p (h_amount h) (h_size h).

Definition Home_set_amount (h : Home) (n : Z) : Home :=
  mkHome (h_pos h) n (h_size h).

Definition Boat_set_pos (b : Boat) (p : pos) : Boat :=
  mkBoat (b_home b) p (b_size b) (b_state b) (b_moore b) (b_amount b)
         (b_turn b) (b_unable b).

Definition Boat_set_size (b : Boat) (s : boat_size) : Boat :=
  mkBoat (b_home b) (b_pos b) s (b_state b) (b_moore b) (b_amount b)
         (b_turn b) (b_unable b).

Definition Boat_set_state (b : Boat) (s : boat_state) : Boat :=
  mkBoat (b_home b) (b_pos b) (b_size b) s (b_moore b) (b_amount b)
         (b_turn b) (b_unable b).

Definition Boat_set_amount (b : Boat) (n : Z) : Boat :=
  mkBoat (b_home b) (b_pos b) (b_size b) (b_state b) (b_moore b) n
         (b_turn b) (b_unable b).

Definition Boat_set_turn (b : Boat) (n : Z) : Boat :=
  mkBoat (b_home b) (b_pos b) (b_size b) (b_state b) (b_moore b) (b_amount b)
         n (b_unable b).

Definition Boat_set_unable (b : Boat) (u : bool) : Boat :=
  mkBoat (b_home b) (b_pos b) (b_size b) (b_state b) (b_moore b) (b_amount b)
         (b_turn b) u.

(** What [grid.place_agent] and [grid.move_agent] do to the object:
    [agent.pos = pos]. *)
Definition agent_set_pos (a : agent) (p : pos) : agent :=
  match a with
  | AOcean _ => AOcean (mkOcean p)
  | ALobster l => ALobster (Lobster_set_pos l p)
  | ABoat b => ABoat (Boat_set_pos b p)
  | AHome h => AHome (Home_set_pos h p)
  | AHeat_Spot s => AHeat_Spot (Heat_Spot_set_pos s p)
  end.

(** Mesa's [MultiGrid(width, height, torus=False)]: every cell holds a list
    of agents.  A cell that is absent from [g_cells] is an empty cell; the
    extents decide what is a cell at all. *)
Record MultiGrid := mkGrid {
  g_width : Z;
  g_height : Z;
  g_cells : gmap pos (list Z)
}.

(** Mesa's [SimultaneousActivation]: the registered agents in insertion
    order, and the two counters. *)
Record Scheduler := mkScheduler {
  s_agents : list Z;
  s_steps : Z;
  s_time : Z
}.

(** The [World] model together with the two pieces of program state it
    runs on: [objects], the store of agent objects by [unique_id], and
    [rand], the tape of the module-level [random] generator.
    [model_random] is the tape of the model's own generator
    ([self.random]), [dc_lobster], [dc_big] and [dc_small] are the series
    gathered by the three [DataCollector]s.  The attributes that are
    written once and never read ([lobster], [boat], [movement], the five
    [..._loc] lists and [big_port]) are left out. *)
Record World := mkWorld {
  height : Z;
  width : Z;
  density : Q;
  sim_length : Z;
  schedule : Scheduler;
  grid : MultiGrid;
  lobster_count : Z;
  big_count : Z;
  small_count : Z;
  running : bool;
  current_id : Z;
  dc_lobster : list Z;
  dc_big : list Z;
  dc_small : list Z;
  objects : gmap Z agent;
  rand : list Z;
  model_random : list Z
}.

Definition set_schedule (s : Scheduler) (w : World) : World :=
  mkWorld (height w) (width w) (density w) (sim_length w) s (grid w)
    (lobster_count w) (big_count w) (small_count w) (running w) (current_id w)
    (dc_lobster w) (dc_big w) (dc_small w) (objects w) (rand w) (model_random w).

Definition set_grid (g : MultiGrid) (w : World) : World :=
  mkWorld (height w) (width w) (density w) (sim_length w) (schedule w) g
    (lobster_count w) (big_count w) (small_count w) (running w) (current_id w)
    (dc_lobster w) (dc_big w) (dc_small w) (objects w) (rand w) (model_random w).

Definition set_lobster_count (n : Z) (w : World) : World :=
  mkWorld (height w) (width w) (density w) (sim_length w) (schedule w) (grid w)
    n (big_count w) (small_count w) (running w) (current_id w)
    (dc_lobster w) (dc_big w) (dc_small w) (objects w) (rand w) (model_random w).

Definition set_big_count (n : Z) (w : World) : World :=
  mkWorld (height w) (width w) (density w) (sim_length w) (schedule w) (grid w)
    (lobster_count w) n (small_count w) (running w) (current_id w)
    (dc_lobster w) (dc_big w) (dc_small w) (objects w) (rand w) (model_random w).

Definition set_small_count (n : Z) (w : World) : World :=
  mkWorld (height w) (width w) (density w) (sim_length w) (schedule w) (grid w)
    (lobster_count w) (big_count w) n (running w) (current_id w)
    (dc_lobster w) (dc_big w) (dc_small w) (objects w) (rand w) (model_random w).

Definition set_running (b : bool) (w : World) : World :=
  mkWorld (height w) (width w) (density w) (sim_length w) (schedule w) (grid w)
    (lobster_count w) (big_count w) (small_count w) b (current_id w)
    (dc_lobster w) (dc_big w) (dc_small w) (objects w) (rand w) (model_random w).

Definition set_current_id (n : Z) (w : World) : World :=
  mkWorld (height w) (width w) (density w) (sim_length w) (schedule w) (grid w)
    (lobster_count w) (big_count w) (small_count w) (running w) n
    (dc_lobster w) (dc_big w) (dc_small w) (objects w) (rand w) (model_random w).

Definition set_collectors (l b s : list Z) (w : World) : World :=
  mkWorld (height w) (width w) (density w) (sim_length w) (schedule w) (grid w)
    (lobster_count w) (big_count w) (small_count w) (running w) (current_id w)
    l b s (objects w) (rand w) (model_random w).

Definition set_objects (o : gmap Z agent) (w : World) : World :=
  mkWorld (height w) (width w) (density w) (sim_length w) (schedule w) (grid w)
    (lobster_count w) (big_count w) (small_count w) (running w) (current_id w)
    (dc_lobster w) (dc_big w) (dc_small w) o (rand w) (model_random w).

Definition set_rand (r : list Z) (w : World) : World :=
  mkWorld (height w) (width w) (density w) (sim_length w) (schedule w) (grid w)
    (lobster_count w) (big_count w) (small_count w) (running w) (current_id w)
    (dc_lobster w) (dc_big w) (dc_small w) (objects w) r (model_random w).

Definition set_model_random (r : list Z) (w : World) : World :=
  mkWorld (height w) (width w) (density w) (sim_length w) (schedule w) (grid w)
    (lobster_count w) (big_count w) (small_count w) (running w) (current_id w)
    (dc_lobster w) (dc_big w) (dc_small w) (objects w) (rand w) r.

(** ** Computations

    A method of the source is a function of the program state that ends in
    one of three ways: it returns, it raises, or it loops for ever (the
    model runs out of fuel).  A raise keeps the state reached so far, since
    [Boat.random_move] catches exceptions and carries on. *)

Inductive exn :=
| OutOfBounds   (* Exception("Point out of bounds, and space non-toroidal.") *)
| ValueError
| IndexError
| KeyError
| TypeError.

#[global] Instance exn_eq_dec : EqDecision exn.
Proof. solve_decision. Defined.

Inductive result (A : Type) :=
| Ok (a : A) (w : World)
| Raise (e : exn) (w : World)
| Diverge.

Arguments Ok {A} a w.
Arguments Raise {A} e w.
Arguments Diverge {A}.

Definition M (A : Type) : Type := World -> result A.

Definition ret {A} (a : A) : M A := fun w => Ok a w.

Definition bind {A B} (m : M A) (f : A -> M B) : M B :=
  fun w =>
    match m w with
    | Ok a w' => f a w'
    | Raise e w' => Raise e w'
    | Diverge => Diverge
    end.

Definition raise {A} (e : exn) : M A := fun w => Raise e w.

Definition gets {A} (f : World -> A) : M A := fun w => Ok (f w) w.

Definition modify (f : World -> World) : M unit := fun w => Ok tt (f w).

Declare Scope sim_scope.
Delimit Scope sim_scope with sim.
Notation "x <- m ;; k" := (bind m (fun x => k))
  (at level 100, m at next level, right associativity) : sim_scope.
Notation "m ;; k" := (bind m (fun _ => k))
  (at level 100, right associativity) : sim_scope.
Open Scope sim_scope.

(** [for x in l: f(x)] *)
Fixpoint mfor {A} (l : list A) (f : A -> M unit) : M unit :=
  match l with
  | [] => ret tt
  | x :: l' => f x ;; mfor l' f
  end.

(** *** The object store *)

Definition get_agent (id : Z) : M agent :=
  fun w =>
    match objects w !! id with
    | Some a => Ok a w
    | None => Raise KeyError w
    end.

Definition put_agent (id : Z) (a : agent) : M unit :=
  modify (fun w => set_objects (<[id := a]> (objects w)) w).

Definition get_lobster (id : Z) : M Lobster :=
  a <- get_agent id ;;
  match a with ALobster l => ret l | _ => raise TypeError end.

Definition get_boat (id : Z) : M Boat :=
  a <- get_agent id ;;
  match a with ABoat b => ret b | _ => raise TypeError end.

Definition get_home (id : Z) : M Home :=
  a <- get_agent id ;;
  match a with AHome h => ret h | _ => raise TypeError end.

Definition get_heat_spot (id : Z) : M Heat_Spot :=
  a <- get_agent id ;;
  match a with AHeat_Spot s => ret s | _ => raise TypeError end.

(** An assignment to attributes of the object [id], [self.x = e]: the
    object is read, changed and stored back. *)
Definition update_agent (id : Z) (f : agent -> agent) : M unit :=
  a <- get_agent id ;; put_agent id (f a).

Definition update_lobster (id : Z) (f : Lobster -> Lobster) : M unit :=
  l <- get_lobster id ;; put_agent id (ALobster (f l)).

Definition update_boat (id : Z) (f : Boat -> Boat) : M unit :=
  b <- get_boat id ;; put_agent id (ABoat (f b)).

Definition update_home (id : Z) (f : Home -> Home) : M unit :=
  h <- get_home id ;; put_agent id (AHome (f h)).

Definition update_heat_spot (id : Z) (f : Heat_Spot -> Heat_Spot) : M unit :=
  s <- get_heat_spot id ;; put_agent id (AHeat_Spot (f s)).

(** *** The [random] module

    A generator is a tape of integers; a call consumes the head and an
    exhausted tape yields 0.  [random.random()] is a multiple of 2^-53 in
    [0, 1). *)

Definition draw : M Z :=
  fun w => Ok (hd 0 (rand w)) (set_rand (tl (rand w)) w).

Definition draw_model : M Z :=
  fun w => Ok (hd 0 (model_random w)) (set_model_random (tl (model_random w)) w).

Definition random_randint (a b : Z) : M Z :=
  if b <? a then raise ValueError
  else d <- draw ;; ret (a + d mod (b - a + 1)).

Definition random_random : M Q :=
  d <- draw ;; ret (Qmake (d mod 2 ^ 53) (2 ^ 53)%positive).

Definition random_choice {A} (l : list A) : M A :=
  d <- draw ;;
  match l !! Z.to_nat (d mod Z.of_nat (length l)) with
  | Some x => ret x
  | None => raise IndexError
  end.

Definition Qltb (a b : Q) : bool := negb (Qle_bool b a).

(** [x[i], x[j] = x[j], x[i]] *)
Definition swap {A} (x : list A) (i j : nat) : list A :=
  match x !! i, x !! j with
  | Some a, Some b => <[i := b]> (<[j := a]> x)
  | _, _ => x
  end.

(** The loop of [Random.shuffle]: for [i] from [len(x) - 1] down to 1,
    swap [x[i]] with [x[randbelow(i + 1)]]. *)
Fixpoint shuffle_from {A} (i : nat) (x : list A) : M (list A) :=
  match i with
  | O => ret x
  | S k =>
      d <- draw_model ;;
      shuffle_from k (swap x (S k) (Z.to_nat (d mod (Z.of_nat (S k) + 1))))
  end.

Definition random_shuffle {A} (x : list A) : M (list A) :=
  shuffle_from (length x - 1) x.

(** ** The grid (Mesa's [MultiGrid], built with [torus=False])

    Coordinates are never negative in this program, so the wrap-around of
    Python's negative list indices is left out: a coordinate outside the
    extents is an [IndexError] where Mesa indexes its lists directly, and
    the "Point out of bounds" exception where it goes through [torus_adj]. *)

Definition out_of_bounds (g : MultiGrid) (p : pos) : bool :=
  (p.1 <? 0) || (g_width g <=? p.1) || (p.2 <? 0) || (g_height g <=? p.2).

(** [grid[x][y]] *)
Definition cell (g : MultiGrid) (p : pos) : list Z :=
  default [] (g_cells g !! p).

Definition set_cell (g : MultiGrid) (p : pos) (l : list Z) : MultiGrid :=
  mkGrid (g_width g) (g_height g) (<[p := l]> (g_cells g)).

(** [get_neighborhood(pos, moore, include_center)] with radius 1: the
    in-bounds cells around [pos], rows first ([dy] is the outer loop). *)
Definition get_neighborhood (g : MultiGrid) (p : pos) (moore include_center : bool)
  : list pos :=
  dy ← [-1; 0; 1];
  dx ← [-1; 0; 1];
  if (dx =? 0) && (dy =? 0) && negb include_center then []
  else if negb moore && (1 <? Z.abs dx + Z.abs dy) then []
  else if out_of_bounds g (p.1 + dx, p.2 + dy) then []
  else [(p.1 + dx, p.2 + dy)].

(** [get_cell_list_contents(cell_list)] for in-bounds cells. *)
Definition cell_list_contents (g : MultiGrid) (ps : list pos) : list Z :=
  p ← ps; cell g p.

(** [get_neighbors(pos, moore, include_center)]: the occupants of the
    neighborhood, cell after cell. *)
Definition get_neighbors (g : MultiGrid) (p : pos) (moore include_center : bool)
  : list Z :=
  cell_list_contents g (get_neighborhood g p moore include_center).

(** [list.remove(x)]: drops the first occurrence. *)
Fixpoint list_remove (x : Z) (l : list Z) : list Z :=
  match l with
  | [] => []
  | y :: l' => if x =? y then l' else y :: list_remove x l'
  end.

Fixpoint list_mem (x : Z) (l : list Z) : bool :=
  match l with
  | [] => false
  | y :: l' => (x =? y) || list_mem x l'
  end.

(** [_remove_agent(pos, agent)]: [grid[x][y].remove(agent)]. *)
Definition _remove_agent (p : pos) (id : Z) : M unit :=
  g <- gets grid ;;
  if out_of_bounds g p then raise IndexError
  else if list_mem id (cell g p)
       then modify (set_grid (set_cell g p (list_remove id (cell g p))))
       else raise ValueError.

(** [_place_agent(pos, agent)]: [grid[x][y].append(agent)]. *)
Definition _place_agent (p : pos) (id : Z) : M unit :=
  g <- gets grid ;;
  if out_of_bounds g p then raise IndexError
  else modify (set_grid (set_cell g p (cell g p ++ [id]))).

(** [place_agent(agent, pos)] *)
Definition place_agent (id : Z) (p : pos) : M unit :=
  _place_agent p id ;;
  update_agent id (fun a => agent_set_pos a p).

(** [move_agent(agent, pos)]: [torus_adj] rejects a destination outside
    the grid before anything is changed. *)
Definition move_agent (id : Z) (p : pos) : M unit :=
  g <- gets grid ;;
  if out_of_bounds g p then raise OutOfBounds
  else
    a <- get_agent id ;;
    _remove_agent (agent_pos a) id ;;
    _place_agent p id ;;
    update_agent id (fun a => agent_set_pos a p).

(** [get_cell_list_contents([(x, y)])] as [World.count_lobster] calls it. *)
Definition get_cell_list_contents1 (p : pos) : M (list Z) :=
  g <- gets grid ;;
  if out_of_bounds g p then raise IndexError else ret (cell g p).

(** ** [agent.py] *)

(** [get_distance] compares as its square does: the source only takes the
    minimum of distances and tests them for equality, and the square root
    is strictly increasing on the integers that occur. *)
Definition get_distance_sq (pos_1 pos_2 : pos) : Z :=
  let dx := pos_1.1 - pos_2.1 in
  let dy := pos_1.2 - pos_2.2 in
  dx ^ 2 + dy ^ 2.

(** The agents of class [k] among a list of ids, as in
    [[n for n in ... if type(n) is k]]. *)
Definition has_kind (w : World) (k : kind) (id : Z) : bool :=
  match objects w !! id with
  | Some a => bool_decide (kind_of a = k)
  | None => false
  end.

Definition of_kind (w : World) (k : kind) (ids : list Z) : list Z :=
  List.filter (has_kind w k) ids.

(** [World.size], which lobsters call as [self.model.size()]. *)
Definition World_size : M Z := gets width.

(** *** Lobster *)

(** [Lobster.change_state] *)
Definition Lobster_change_state (id : Z) (s : lobster_state) : M unit :=
  update_lobster id (fun l => Lobster_set_state l s).

(** [Lobster.caught]: [self.schedule] is the lobster's private scheduler,
    and removing an agent that is not registered is a [KeyError]. *)
Definition Lobster_caught (id : Z) : M unit :=
  l <- get_lobster id ;;
  match l_state l with
  | Caught =>
      if list_mem id (l_schedule l)
      then update_lobster id
             (fun l => Lobster_set_schedule l (list_remove id (l_schedule l)))
      else raise KeyError
  | Wander => ret tt
  end.

(** [Lobster.heat_locater]: the [return] sits inside the loop, so the
    history of the first heat spot found is the answer; [None] when the
    loop body never runs. *)
Definition Lobster_heat_locater (id : Z) : M (option (list Z)) :=
  l <- get_lobster id ;;
  g <- gets grid ;;
  w <- gets (fun w => w) ;;
  match of_kind w KHeat_Spot (get_neighbors g (l_pos l) (l_moore l) false) with
  | [] => ret None
  | h :: _ =>
      s <- get_heat_spot h ;;
      ret (Some (hs_tracks s))
  end.

(** The [moves] list of [Lobster.move_north]. *)
Definition Lobster_moves (g : MultiGrid) (l : Lobster) (heat : option (list Z))
  : list pos :=
  match heat with
  | Some tracks =>
      List.filter (fun move : pos => negb (list_mem move.2 tracks))
                  (get_neighborhood g (l_pos l) (l_moore l) true)
  | None => []
  end.

(** [Lobster.neighbor_move] *)
Fixpoint Lobster_neighbor_move (fuel : nat) (id : Z) : M unit :=
  match fuel with
  | O => fun _ => Diverge
  | S fuel' =>
      self <- get_lobster id ;;
      g <- gets grid ;;
      w <- gets (fun w => w) ;;
      let lobsters :=
        of_kind w KLobster (get_neighbors g (l_pos self) (l_moore self) false) in
      mfor lobsters (fun l =>
        other <- get_lobster l ;;
        self <- get_lobster id ;;
        if (l_pos self).2 <? (l_pos other).2
        then Lobster_neighbor_move fuel' l
        else ret tt) ;;
      r <- random_random ;;
      if Qltb r (1 # 4) then
        self <- get_lobster id ;;
        size <- World_size ;;
        if (l_pos self).2 + 1 <? size
        then move_agent id ((l_pos self).1, (l_pos self).2 + 1)
        else ret tt
      else ret tt
  end.

(** [Lobster.move_north] *)
Definition Lobster_move_north (fuel : nat) (id : Z) : M unit :=
  heat <- Lobster_heat_locater id ;;
  l <- get_lobster id ;;
  g <- gets grid ;;
  let moves := Lobster_moves g l heat in
  match moves with
  | [] => ret tt
  | _ =>
      next_move <- random_choice moves ;;
      move_agent id next_move ;;
      Lobster_neighbor_move fuel id
  end.

(** [Lobster.step] *)
Definition Lobster_step (fuel : nat) (id : Z) : M unit :=
  update_lobster id (fun l => Lobster_set_turn l (l_turn l + 1)) ;;
  Lobster_move_north fuel id ;;
  update_lobster id (fun l => Lobster_set_count l (l_count l + 1)) ;;
  update_lobster id (fun l => Lobster_set_counts l (l_counts l ++ [l_count l])).

(** *** Boat *)

(** [Boat.able_to_return] *)
Definition Boat_able_to_return (id : Z) : M bool :=
  b <- get_boat id ;;
  if bool_decide (b_size b = Big) && (b_amount b =? 10) then ret true
  else if bool_decide (b_size b = Small) && (b_amount b =? 5) then ret true
  else ret false.

(** The loop of [Boat.catch] over the neighbors gathered before it. *)
Fixpoint Boat_catch_loop (id : Z) (neighbors : list Z) : M bool :=
  match neighbors with
  | [] => ret false
  | n :: rest =>
      a <- get_agent n ;;
      match a with
      | ALobster l =>
          match l_state l with
          | Wander =>
              move_agent id (l_pos l) ;;
              update_boat id (fun b => Boat_set_amount b (b_amount b + 1)) ;;
              update_lobster n (fun l => Lobster_set_state l Caught) ;;
              ret true
          | Caught => Boat_catch_loop id rest
          end
      | _ => Boat_catch_loop id rest
      end
  end.

(** [Boat.catch] *)
Definition Boat_catch (id : Z) : M bool :=
  b <- get_boat id ;;
  g <- gets grid ;;
  Boat_catch_loop id (get_neighbors g (b_pos b) (b_moore b) true).

(** The [try] block of [Boat.random_move]. *)
Definition Boat_random_move_try (id : Z) : M unit :=
  b <- get_boat id ;;
  g <- gets grid ;;
  next_move <- random_choice (get_neighborhood g (b_pos b) (b_moore b) true) ;;
  move_agent id next_move.

(** [Boat.random_move]: [while True] around a [try] whose bare [except]
    swallows every exception and goes round again. *)
Fixpoint Boat_random_move (fuel : nat) (id : Z) : M unit :=
  match fuel with
  | O => fun _ => Diverge
  | S fuel' =>
      fun w =>
        match Boat_random_move_try id w with
        | Ok _ w' => Ok tt w'
        | Raise _ w' => Boat_random_move fuel' id w'
        | Diverge => Diverge
        end
  end.

(** [Boat.smart_move] *)
Definition Boat_smart_move (id : Z) : M unit :=
  b <- get_boat id ;;
  let x := (b_pos b).1 in
  let y := (b_pos b).2 in
  move_agent id (x, y + 1).

Definition list_min (d : Z) (l : list Z) : Z := foldr Z.min d l.

(** [Boat.return_home] *)
Definition Boat_return_home (id : Z) : M unit :=
  b <- get_boat id ;;
  g <- gets grid ;;
  w <- gets (fun w => w) ;;
  home <- get_home (b_home b) ;;
  let neighbors :=
    omap (fun n => agent_pos <$> objects w !! n)
         (of_kind w KOcean (get_neighbors g (b_pos b) (b_moore b) false)) in
  match neighbors with
  | [] => raise ValueError
  | p0 :: _ =>
      let min_dist :=
        list_min (get_distance_sq (h_pos home) p0)
                 (map (get_distance_sq (h_pos home)) neighbors) in
      let final_candidates :=
        List.filter (fun p => get_distance_sq (h_pos home) p =? min_dist) neighbors in
      shuffled <- random_shuffle final_candidates ;;
      match shuffled with
      | [] => raise IndexError
      | p :: _ => move_agent id p
      end
  end.

(** [Boat.in_storage] *)
Definition Boat_in_storage (id : Z) : M unit :=
  b <- get_boat id ;;
  modify (fun w => set_big_count (big_count w + b_amount b) w).

(** [Boat.step] *)
Definition Boat_step (fuel : nat) (id : Z) : M unit :=
  update_boat id (fun b => Boat_set_turn b (b_turn b + 1)) ;;
  b <- get_boat id ;;
  match b_state b with
  | Search =>
      if (bool_decide (b_size b = Small) && ((b_pos b).2 <? 26))
         || bool_decide (b_size b = Big)
      then
        (if (b_pos b).2 <? 4 + b_turn b / 5
         then Boat_smart_move id
         else Boat_random_move fuel id) ;;
        c <- Boat_catch id ;;
        if c then
          r <- Boat_able_to_return id ;;
          if r then update_boat id (fun b => Boat_set_state b Return)
          else ret tt
        else ret tt
      else
        update_boat id (fun b => Boat_set_unable b true) ;;
        update_boat id (fun b => Boat_set_state b Return)
  | Return =>
      home <- get_home (b_home b) ;;
      if bool_decide (b_pos b = h_pos home) then
        (if negb (b_unable b)
         then update_boat id (fun b => Boat_set_state b Search)
         else ret tt) ;;
        b <- get_boat id ;;
        match b_size b with
        | Big => modify (fun w => set_big_count (big_count w + b_amount b) w)
        | Small => modify (fun w => set_small_count (small_count w + b_amount b) w)
        end ;;
        update_boat id (fun b => Boat_set_amount b 0)
      else Boat_return_home id
  end.

(** *** Home *)

(** [Home.add] *)
Definition Home_add (id : Z) (amount : Z) : M unit :=
  update_home id (fun h => Home_set_amount h (h_amount h + amount)).

(** *** Heat_Spot *)

(** [Heat_Spot.step] *)
Definition Heat_Spot_step (id : Z) : M unit :=
  update_heat_spot id (fun s => Heat_Spot_set_turn s (hs_turn s + 1)) ;;
  s <- get_heat_spot id ;;
  if hs_turn s mod 5 =? 0 then
    move_agent id ((hs_pos s).1, hs_count s) ;;
    update_heat_spot id (fun s => Heat_Spot_set_count s (hs_count s + 1)) ;;
    update_heat_spot id (fun s => Heat_Spot_set_tracks s (hs_tracks s ++ [hs_count s]))
  else ret tt.

(** [Heat_Spot.track] *)
Definition Heat_Spot_track (id : Z) : M (list Z) :=
  s <- get_heat_spot id ;; ret (hs_tracks s).

(** ** [model.py] *)

(** [agent.step()], dispatched on the class of the object.  [Ocean] and
    [Home] inherit the empty [step] of Mesa's [Agent]. *)
Definition Agent_step (fuel : nat) (id : Z) : M unit :=
  a <- get_agent id ;;
  match a with
  | AOcean _ => ret tt
  | AHome _ => ret tt
  | ALobster _ => Lobster_step fuel id
  | ABoat _ => Boat_step fuel id
  | AHeat_Spot _ => Heat_Spot_step id
  end.

(** [SimultaneousActivation.step]: every agent's [step], then every
    agent's [advance] (empty for all five classes), then the counters. *)
Definition Scheduler_step (fuel : nat) : M unit :=
  agent_keys <- gets (fun w => s_agents (schedule w)) ;;
  mfor agent_keys (Agent_step fuel) ;;
  mfor agent_keys (fun id => _ <- get_agent id ;; ret tt) ;;
  modify (fun w =>
    set_schedule (mkScheduler (s_agents (schedule w)) (s_steps (schedule w) + 1)
                              (s_time (schedule w) + 1)) w).

(** [Scheduler.add] *)
Definition Scheduler_add (id : Z) : M unit :=
  modify (fun w =>
    set_schedule (mkScheduler (s_agents (schedule w) ++ [id]) (s_steps (schedule w))
                              (s_time (schedule w))) w).

(** [Model.next_id] *)
Definition next_id : M Z :=
  modify (fun w => set_current_id (current_id w + 1) w) ;;
  gets current_id.

(** [range(n)] *)
Definition range (n : Z) : list Z := seqZ 0 n.

(** [World.count_lobster] *)
Definition World_count_lobster : M unit :=
  modify (set_lobster_count 0) ;;
  w <- gets width ;;
  h <- gets height ;;
  mfor (range w) (fun x =>
    mfor (range (h - 1)) (fun y =>
      spot_agents <- get_cell_list_contents1 (x, y) ;;
      mfor spot_agents (fun n =>
        a <- get_agent n ;;
        match a with
        | ALobster l =>
            match l_state l with
            | Wander => modify (fun w => set_lobster_count (lobster_count w + 1) w)
            | Caught => ret tt
            end
        | _ => ret tt
        end))).

(** The three [collect] calls of [World.step]. *)
Definition collect : M unit :=
  modify (fun w =>
    set_collectors (dc_lobster w ++ [lobster_count w]) (dc_big w ++ [big_count w])
                   (dc_small w ++ [small_count w]) w).

(** [World.step] *)
Definition World_step (fuel : nat) : M unit :=
  Scheduler_step fuel ;;
  World_count_lobster ;;
  collect ;;
  t <- gets (fun w => s_time (schedule w)) ;;
  n <- gets sim_length ;;
  if t =? n then
    agents <- gets (fun w => s_agents (schedule w)) ;;
    mfor agents (fun id =>
      a <- get_agent id ;;
      match a with
      | ABoat _ => Boat_in_storage id
      | _ => ret tt
      end) ;;
    collect ;;
    modify (set_running false)
  else ret tt.

(** [n] calls of [World.step]. *)
Fixpoint World_steps (fuel : nat) (n : nat) : M unit :=
  match n with
  | O => ret tt
  | S k => World_step fuel ;; World_steps fuel k
  end.

(** Constructing an object and registering it the way [World.__init__]
    does for every agent: [a = C(self.next_id(), ...)],
    [grid.place_agent(a, pos)], [schedule.add(a)]. *)
Definition new_object (mk : M agent) : M Z :=
  id <- next_id ;;
  a <- mk ;;
  put_agent id a ;;
  ret id.

Definition new_Home (p : pos) : M Z :=
  id <- new_object (ret (AHome (mkHome p 0 "big"))) ;;
  place_agent id p ;;
  Scheduler_add id ;;
  ret id.

Definition new_Ocean (p : pos) : M unit :=
  id <- new_object (ret (AOcean (mkOcean p))) ;;
  place_agent id p ;;
  Scheduler_add id.

Definition new_Heat_Spot (p : pos) : M unit :=
  id <- new_object (ret (AHeat_Spot (mkHeat_Spot true p 4 0 [0; 1; 2; 3; 4]))) ;;
  place_agent id p ;;
  Scheduler_add id.

(** One round of the boat loop of [World.__init__].  The thresholds
    [.33] and [.66] are taken as the rationals they stand for. *)
Definition new_Boat (Port1 Port2 Port3 : Z) : M unit :=
  w <- gets width ;;
  nx <- random_randint 0 (w - 1) ;;
  ny <- random_randint 0 3 ;;
  let new_loc := (nx, ny) in
  r <- random_random ;;
  x <- random_random ;;
  let home := if Qltb x (33 # 100) then Port1
              else if Qltb x (66 # 100) then Port2 else Port3 in
  id <- new_object (ret (ABoat (mkBoat home new_loc Small Search true 0 0 false))) ;;
  d <- gets density ;;
  (if Qltb r d then update_boat id (fun b => Boat_set_size b Small)
   else if Qltb d r then update_boat id (fun b => Boat_set_size b Big)
   else ret tt) ;;
  place_agent id new_loc ;;
  Scheduler_add id.

(** One round of the lobster loop; [Lobster.__init__] draws the timer. *)
Definition new_Lobster : M unit :=
  h <- gets height ;;
  nx <- random_randint 0 (h - 1) ;;
  ny <- random_randint 4 (h - 1) ;;
  let new_loc := (nx, ny) in
  id <- new_object (timer <- random_randint 0 10 ;;
                    ret (ALobster (mkLobster new_loc Wander true timer 0 [0] [] 0))) ;;
  place_agent id new_loc ;;
  Scheduler_add id.

(** The body of [World.__init__], run on the freshly built attributes. *)
Definition World_init_body (num_lobsters num_boats : Z) : M unit :=
  Port1 <- new_Home (13, 0) ;;
  Port2 <- new_Home (26, 0) ;;
  Port3 <- new_Home (39, 0) ;;
  g <- gets grid ;;
  mfor (range (g_width g)) (fun x =>
    mfor (range (g_height g)) (fun y => new_Ocean (x, y))) ;;
  w <- gets width ;;
  mfor (range w) (fun i => new_Heat_Spot (i, 3)) ;;
  mfor (range num_boats) (fun _ => new_Boat Port1 Port2 Port3) ;;
  mfor (range num_lobsters) (fun _ => new_Lobster) ;;
  modify (set_running true).

(** [World(height, width, num_lobsters, num_boats, movement, density,
    sim_length)], on the tapes [tape] and [model_tape] of the two
    generators.  The grid is built by [MultiGrid(height, width, ...)]
    although Mesa's constructor takes the width first. *)
Definition World_init (height width num_lobsters num_boats : Z) (movement density : Q)
    (sim_length : Z) (tape model_tape : list Z) : result unit :=
  World_init_body num_lobsters num_boats
    (mkWorld height width density sim_length (mkScheduler [] 0 0)
             (mkGrid height width ∅) 0 0 0 true 0 [] [] [] ∅ tape model_tape).

(** * Specifications *)

(** A triple: from a state satisfying [P], a computation that returns
    does so in a state satisfying [Q], and one that raises leaves a state
    satisfying [E]. *)
Definition hoare {A} (P : World -> Prop) (m : M A) (Q : A -> World -> Prop)
    (E : World -> Prop) : Prop :=
  forall w, P w ->
    match m w with
    | Ok a w' => Q a w'
    | Raise _ w' => E w'
    | Diverge => True
    end.

(** An invariant, kept whatever the outcome. *)
Definition preserves {A} (I : World -> Prop) (m : M A) : Prop :=
  hoare I m (fun _ => I) I.

(** The object [id] is the boat [b], the lobster [l], ... *)
Definition boat_at (id : Z) (b : Boat) (w : World) : Prop :=
  objects w !! id = Some (ABoat b).

Definition lobster_at (id : Z) (l : Lobster) (w : World) : Prop :=
  objects w !! id = Some (ALobster l).

Definition heat_spot_at (id : Z) (s : Heat_Spot) (w : World) : Prop :=
  objects w !! id = Some (AHeat_Spot s).

Definition home_at (id : Z) (h : Home) (w : World) : Prop :=
  objects w !! id = Some (AHome h).

(** The state [move_agent id p] returns in, when it returns. *)
Definition moved_grid (g : MultiGrid) (a : agent) (id : Z) (p : pos) : MultiGrid :=
  let g1 := set_cell g (agent_pos a) (list_remove id (cell g (agent_pos a))) in
  set_cell g1 p (cell g1 p ++ [id]).

Definition moved (id : Z) (a : agent) (p : pos) (w : World) : World :=
  set_objects (<[id := agent_set_pos a p]> (objects w))
              (set_grid (moved_grid (grid w) a id p) w).

(** A property [phi] of every entry of the object store but [skip]: of
    the object stored under an id, or of there being none. *)
Definition store_inv (phi : Z -> option agent -> Prop) (skip : option Z) (w : World)
  : Prop :=
  forall id, Some id <> skip -> phi id (objects w !! id).

(** A property of the objects there are. *)
Definition each (psi : agent -> Prop) : Z -> option agent -> Prop :=
  fun _ oa => match oa with Some a => psi a | None => True end.

(** The catch a boat can hold: [Boat.able_to_return] sends a [Small] boat
    home at 5 and a [Big] one at 10. *)
Definition capacity (s : boat_size) : Z :=
  match s with Small => 5 | Big => 10 end.

(** The test of [Boat.step] that lets a searching boat go on. *)
Definition eligible (b : Boat) : bool :=
  (bool_decide (b_size b = Small) && ((b_pos b).2 <? 26)) || bool_decide (b_size b = Big).

(** What one [Boat.step] does to the boat it steps, apart from where it
    moves it. *)
Record Boat_trans (b b' : Boat) : Prop := mkBoat_trans {
  bt_home : b_home b' = b_home b;
  bt_size : b_size b' = b_size b;
  bt_turn : b_turn b' = b_turn b + 1;
  bt_cases :
    match b_state b with
    | Search =>
        if eligible b then
          b_unable b' = b_unable b /\
          ((b_amount b' = b_amount b /\ b_state b' = Search) \/
           (b_amount b' = b_amount b + 1 /\
            b_state b' = if b_amount b' =? capacity (b_size b) then Return else Search))
        else
          b_unable b' = true /\ b_state b' = Return /\ b_amount b' = b_amount b
    | Return =>
        b_unable b' = b_unable b /\
        ((b_amount b' = 0 /\ b_state b' = if b_unable b then Return else Search) \/
         (b_amount b' = b_amount b /\ b_state b' = Return))
    end
}.

(** A computation keeps [I] as long as it returns. *)
Definition safe {A} (I : World -> Prop) (m : M A) : Prop :=
  hoare I m (fun _ => I) (fun _ => True).

(** An object as [World.__init__] makes it. *)
Definition fresh (a : agent) : Prop :=
  match a with
  | AHome h => h_amount h = 0
  | ABoat b => b_state b = Search /\ b_amount b = 0 /\ b_unable b = false
  | _ => True
  end.

(** A catch moves the boat and adds one to what it holds; a failed catch
    leaves the boat alone. *)
Definition caught_one (id : Z) (b : Boat) (c : bool) (w : World) : Prop :=
  if c then exists p, boat_at id (Boat_set_amount (Boat_set_pos b p) (b_amount b + 1)) w
  else boat_at id b w.

(** ** Properties of a run *)

(** A port that has not been credited anything. *)
Definition home_empty (a : agent) : Prop :=
  match a with AHome h => h_amount h = 0 | _ => True end.



(** A boat that was found too far out: flagged, and on its way home or
    docked. *)
Definition docked (b : Boat) : Prop :=
  b_unable b = true /\ b_state b = Return.

Definition docked_at (id : Z) (w : World) : Prop :=
  exists b, boat_at id b w /\ docked b.

Definition docked_entry (id : Z) : Z -> option agent -> Prop :=
  fun id' oa => id' = id -> exists b, oa = Some (ABoat b) /\ docked b.

(** ** Sample runs *)

Definition empty_world : World :=
  mkWorld 0 0 0 0 (mkScheduler [] 0 0) (mkGrid 0 0 ∅) 0 0 0 false 0 [] [] [] ∅ [] [].

(** The state a computation ends in. *)
Definition outcome_world {A} (r : result A) : World :=
  match r with
  | Ok _ w => w
  | Raise _ w => w
  | Diverge => empty_world
  end.

Definition is_ok {A} (r : result A) : bool :=
  match r with Ok _ _ => true | _ => false end.

(** One [Small] boat at (5, 3) with home port 1 and one lobster at
    (5, 4), on a 40 by 40 grid; the tape then sends the lobster to
    (5, 5) in tick 1 and to (5, 6) in tick 5 and keeps the boat in place
    in ticks 2 to 4. *)
Definition tape_A : list Z := [5; 3; 0; 0; 5; 0; 0; 1; 2 ^ 52; 4; 4; 4; 1; 2 ^ 52].

Definition init_A (sim_length : Z) : result unit :=
  World_init 40 40 1 1 (3 # 10) (6 # 10) sim_length tape_A [].

Definition world_A0 (sim_length : Z) : World := outcome_world (init_A sim_length).

Definition world_A (sim_length : Z) (ticks : nat) : World :=
  outcome_world (World_steps 50 ticks (world_A0 sim_length)).

(** One [Small] boat and five lobsters that all start at (5, 5): the boat
    reaches them in tick 1 and the tape keeps it there, so that it catches
    one lobster a tick. *)
Definition tape_B : list Z :=
  [5; 3; 0; 0] ++ [5; 1; 0; 5; 1; 0; 5; 1; 0; 5; 1; 0; 5; 1; 0] ++ [4; 4; 4; 4].

Definition init_B : result unit :=
  World_init 40 40 5 1 (3 # 10) (6 # 10) 30 tape_B [].

Definition world_B0 : World := outcome_world init_B.

Definition world_B (ticks : nat) : World :=
  outcome_world (World_steps 50 ticks world_B0).


(** One [Small] boat and no lobster; the tape takes the boat one row up
    a tick, to row 26 after 23 ticks. *)
Definition tape_E : list Z := [5; 3; 0; 0] ++ repeat 7 22.

Definition init_E : result unit :=
  World_init 40 40 0 1 (3 # 10) (6 # 10) 300 tape_E [].

Definition world_E0 : World := outcome_world init_E.

Definition world_E (ticks : nat) : World :=
  outcome_world (World_steps 50 ticks world_E0).

(** Where [Boat.step] credits the catch of a boat that is back at its
    port. *)
Definition banked (b : Boat) (w w' : World) : Prop :=
  match b_size b with
  | Big => big_count w' = big_count w + b_amount b /\ small_count w' = small_count w
  | Small => small_count w' = small_count w + b_amount b /\ big_count w' = big_count w
  end.


(** ** [Lobster.move_north] *)

(** The heat spots among the 8 neighbors of a lobster, in the order of
    [get_neighbors]. *)
Definition heat_neighbors (w : World) (l : Lobster) : list Z :=
  of_kind w KHeat_Spot (get_neighbors (grid w) (l_pos l) (l_moore l) false).

Definition tracks_of (w : World) (id : Z) : list Z :=
  match objects w !! id with
  | Some (AHeat_Spot s) => hs_tracks s
  | _ => []
  end.

(** The rows in the history of any of the heat spots [ids]. *)
Definition union_tracks (w : World) (ids : list Z) : list Z :=
  id ← ids; tracks_of w id.

(** The neighborhood positions, center included, whose row is not in
    [rows]. *)
Definition rows_avoiding (rows : list Z) (g : MultiGrid) (l : Lobster) : list pos :=
  List.filter (fun move : pos => negb (list_mem move.2 rows))
              (get_neighborhood g (l_pos l) (l_moore l) true).


(** A lobster at (1, 4) between two heat spots: the one at (1, 3) has the
    history of its construction, the one at (0, 4) has made its first
    move. *)
Definition world_6 : World :=
  mkWorld 6 6 (6 # 10) 30 (mkScheduler [1; 2; 3] 0 4)
    (mkGrid 6 6 (<[(0, 4) := [1]]> (<[(1, 3) := [2]]> (<[(1, 4) := [3]]> ∅))))
    1 0 0 true 3 [] [] []
    (<[1 := AHeat_Spot (mkHeat_Spot true (0, 4) 5 5 [0; 1; 2; 3; 4; 5])]>
       (<[2 := AHeat_Spot (mkHeat_Spot true (1, 3) 4 4 [0; 1; 2; 3; 4])]>
          (<[3 := ALobster (mkLobster (1, 4) Wander true 0 4 [0; 1; 2; 3; 4] [] 4)]> ∅)))
    [1; 2 ^ 52] [].

(** ** Counting lobsters *)

Definition is_wander (w : World) (id : Z) : bool :=
  match objects w !! id with
  | Some (ALobster l) => bool_decide (l_state l = Wander)
  | _ => false
  end.

(** The [Wander] lobsters in the cells of the whole grid. *)
Definition wander_on_grid (w : World) : Z :=
  Z.of_nat (length (List.filter (is_wander w)
    (x ← range (g_width (grid w)); y ← range (g_height (grid w)); cell (grid w) (x, y)))).

(** One lobster at (5, 39), in the top row, and no boat. *)
Definition init_C : result unit :=
  World_init 40 40 1 0 (3 # 10) (6 # 10) 30 [5; 35; 0] [].

Definition world_C0 : World := outcome_world init_C.

Definition world_C (ticks : nat) : World :=
  outcome_world (World_steps 50 ticks world_C0).

(** One [Big] boat and no lobster; the tape takes the boat up to the top
    row, which it reaches in tick 36, and keeps it there. *)
Definition tape_D : list Z := [5; 3; 2 ^ 53 - 1; 0] ++ repeat 7 35 ++ repeat 4 143.

Definition init_D : result unit :=
  World_init 40 40 0 1 (3 # 10) (6 # 10) 300 tape_D [].

Definition world_D0 : World := outcome_world init_D.

Definition raises {A} (e : exn) (r : result A) : bool :=
  match r with Raise e' _ => bool_decide (e' = e) | _ => false end.

(** What is read off the state a run has reached. *)
Definition probe_D (r : result unit) :=
  let w := outcome_world r in
  (is_ok r, objects w !! 1644, height w, g_width (grid w), g_height (grid w),
   list_mem 1644 (cell (grid w) (5, 39)), raises OutOfBounds (World_step 50 w)).

Definition probe_lobster (id : Z) (w : World) :=
  (objects w !! id,
   list_mem id (cell (grid w) (agent_pos (default (AOcean (mkOcean (0, 0))) (objects w !! id)))),
   list_mem id (s_agents (schedule w))).

(** The cells [count_lobster] visits, in its order, and the [Wander]
    lobsters in a list of cells. *)
Definition scanned (w : World) : list pos :=
  x ← range (width w); y ← range (height w - 1); [(x, y)].

Definition wander_in (w : World) (cells : list pos) : Z :=
  Z.of_nat (length (List.filter (is_wander w) (p ← cells; cell (grid w) p))).

(** Every occupant of a cell is a stored object. *)
Definition grid_closed (w : World) : Prop :=
  forall p id, In id (cell (grid w) p) -> is_Some (objects w !! id).

(** The body of the innermost loop of [count_lobster]. *)
Definition count_agent (n : Z) : M unit :=
  a <- get_agent n ;;
  match a with
  | ALobster l =>
      match l_state l with
      | Wander => modify (fun w => set_lobster_count (lobster_count w + 1) w)
      | Caught => ret tt
      end
  | _ => ret tt
  end.

Inductive Lobster_effect : World -> World -> Prop :=
| le_rand w r : Lobster_effect w (set_rand r w)
| le_move w id l p :
    lobster_at id l w ->
    out_of_bounds (grid w) p = false ->
    out_of_bounds (grid w) (l_pos l) = false ->
    list_mem id (cell (grid w) (l_pos l)) = true ->
    Lobster_effect w (moved id (ALobster l) p w)
| le_write w id l l' :
    lobster_at id l w ->
    l_pos l' = l_pos l -> l_state l' = l_state l -> l_schedule l' = l_schedule l ->
    Lobster_effect w (set_objects (<[id := ALobster l']> (objects w)) w).

Inductive Boat_effect (id : Z) : World -> World -> Prop :=
| be_rand w r : Boat_effect id w (set_rand r w)
| be_model_random w r : Boat_effect id w (set_model_random r w)
| be_move w b p :
    boat_at id b w ->
    out_of_bounds (grid w) p = false ->
    out_of_bounds (grid w) (b_pos b) = false ->
    list_mem id (cell (grid w) (b_pos b)) = true ->
    Boat_effect id w (moved id (ABoat b) p w)
| be_write w b b' :
    boat_at id b w ->
    b_pos b' = b_pos b -> b_home b' = b_home b -> b_size b' = b_size b ->
    Boat_effect id w (set_objects (<[id := ABoat b']> (objects w)) w)
| be_catch w n l :
    lobster_at n l w ->
    Boat_effect id w
      (set_objects (<[n := ALobster (Lobster_set_state l Caught)]> (objects w)) w)
| be_big w b :
    boat_at id b w -> Boat_effect id w (set_big_count (big_count w + b_amount b) w)
| be_small w b :
    boat_at id b w -> Boat_effect id w (set_small_count (small_count w + b_amount b) w).

Inductive Heat_Spot_effect (id : Z) : World -> World -> Prop :=
| he_move w s p :
    heat_spot_at id s w ->
    out_of_bounds (grid w) p = false ->
    out_of_bounds (grid w) (hs_pos s) = false ->
    list_mem id (cell (grid w) (hs_pos s)) = true ->
    Heat_Spot_effect id w (moved id (AHeat_Spot s) p w)
| he_write w s s' :
    heat_spot_at id s w ->
    hs_pos s' = hs_pos s ->
    Heat_Spot_effect id w (set_objects (<[id := AHeat_Spot s']> (objects w)) w).

Inductive Agent_effect : World -> World -> Prop :=
| ae_lobster w w' : Lobster_effect w w' -> Agent_effect w w'
| ae_boat id w w' : Boat_effect id w w' -> Agent_effect w w'
| ae_heat_spot id w w' : Heat_Spot_effect id w w' -> Agent_effect w w'.

Definition effects {A} (R : relation World) (P : World -> Prop) (m : M A) : Prop :=
  forall w, P w ->
    match m w with
    | Ok _ w' => rtc R w w'
    | Raise _ w' => rtc R w w'
    | Diverge => True
    end.

Definition stable (R : relation World) (P : World -> Prop) : Prop :=
  forall w w', R w w' -> P w -> P w'.

Definition kinded (k : kind) (id : Z) (w : World) : Prop := has_kind w k id = true.

Inductive Tail_effect : World -> World -> Prop :=
| te_tick w :
    Tail_effect w
      (set_schedule (mkScheduler (s_agents (schedule w)) (s_steps (schedule w) + 1)
                                 (s_time (schedule w) + 1)) w)
| te_count w n : Tail_effect w (set_lobster_count n w)
| te_collect w :
    Tail_effect w
      (set_collectors (dc_lobster w ++ [lobster_count w]) (dc_big w ++ [big_count w])
                      (dc_small w ++ [small_count w]) w)
| te_storage w id b :
    boat_at id b w -> Tail_effect w (set_big_count (big_count w + b_amount b) w)
| te_finish w : Tail_effect w (set_running false w).

Inductive World_effect : World -> World -> Prop :=
| we_agent w w' : Agent_effect w w' -> World_effect w w'
| we_tail w w' : Tail_effect w w' -> World_effect w w'.

(** Grid and objects agree. *)
Record well_formed (w : World) : Prop := mk_well_formed {
  wf_placed : forall id a, objects w !! id = Some a ->
    out_of_bounds (grid w) (agent_pos a) = false /\ In id (cell (grid w) (agent_pos a));
  wf_cells : forall p id, In id (cell (grid w) p) ->
    exists a, objects w !! id = Some a /\ agent_pos a = p;
  wf_nodup : forall p, NoDup (cell (grid w) p);
  wf_ids : forall id, is_Some (objects w !! id) <-> 1 <= id <= current_id w;
  wf_current : 0 <= current_id w;
  wf_schedule : s_agents (schedule w) = seqZ 1 (current_id w)
}.

(** The attributes the constructors give an object. *)
Definition initial (a : agent) : Prop :=
  match a with
  | AOcean _ => True
  | AHome h => h_amount h = 0
  | AHeat_Spot s =>
      hs_count s = 4 /\ hs_turn s = 0 /\ hs_tracks s = [0; 1; 2; 3; 4] /\ (hs_pos s).2 = 3
  | ABoat b => b_state b = Search /\ b_amount b = 0 /\ b_unable b = false /\ b_turn b = 0
  | ALobster l =>
      l_state l = Wander /\ l_schedule l = [] /\ l_turn l = 0 /\ l_count l = 0
  end.

(** The state after [a = C(self.next_id(), ...)], [grid.place_agent(a, pos)]
    and [schedule.add(a)]. *)
Definition spawned (a : agent) (w : World) : World :=
  let id := current_id w + 1 in
  let p := agent_pos a in
  set_schedule (mkScheduler (s_agents (schedule w) ++ [id]) (s_steps (schedule w))
                            (s_time (schedule w)))
    (set_objects (<[id := a]> (objects w))
       (set_grid (set_cell (grid w) p (cell (grid w) p ++ [id]))
          (set_current_id id w))).

Inductive Init_effect : World -> World -> Prop :=
| ie_rand w r : Init_effect w (set_rand r w)
| ie_spawn w a :
    out_of_bounds (grid w) (agent_pos a) = false -> initial a ->
    Init_effect w (spawned a w)
| ie_running w : Init_effect w (set_running true w).

(** A computation of [World.__init__]: what it does when it returns, what
    it returns, and that it returns from a state with [P]. *)
Definition builds {A} (P : World -> Prop) (m : M A) (Q : A -> Prop) : Prop :=
  forall w,
    match m w with
    | Ok a w' => rtc Init_effect w w' /\ Q a
    | Raise _ _ => ~ P w
    | Diverge => False
    end.

Definition boat_size_drawn (r d : Q) : boat_size :=
  if Qltb r d then Small else if Qltb d r then Big else Small.

(** The extents [World.__init__] needs: the ports, the heat spots, the
    boats and (if there are any) the lobsters are placed inside the grid
    whatever is drawn. *)
Definition roomy (num_lobsters : Z) (w : World) : Prop :=
  g_width (grid w) = height w /\ g_height (grid w) = width w /\
  40 <= height w /\ 4 <= width w <= height w /\
  (0 < num_lobsters -> height w <= width w).

(** The attributes as [World.__init__] sets them before it creates the
    first agent. *)
Definition blank (height width : Z) (density : Q) (sim_length : Z)
    (tape model_tape : list Z) : World :=
  mkWorld height width density sim_length (mkScheduler [] 0 0)
          (mkGrid height width ∅) 0 0 0 true 0 [] [] [] ∅ tape model_tape.

(** The state a computation stops in, with a result or an exception. *)
Definition ends {A} (r : result A) (w : World) : Prop :=
  match r with
  | Ok _ w' => w' = w
  | Raise _ w' => w' = w
  | Diverge => False
  end.

(** * Proofs *)

#[local] Set Default Proof Using "All".

(** ** Triples *)

Lemma hoare_ret {A} (P E : World -> Prop) (a : A) (Q : A -> World -> Prop) :
  (forall w, P w -> Q a w) -> hoare P (ret a) Q E.
Proof. intros H w Hw. simpl. auto. Qed.

Lemma hoare_raise {A} (P E : World -> Prop) (e : exn) (Q : A -> World -> Prop) :
  (forall w, P w -> E w) -> hoare P (raise e) Q E.
Proof. intros H w Hw. simpl. auto. Qed.

Lemma hoare_gets {A} (P E : World -> Prop) (f : World -> A) (Q : A -> World -> Prop) :
  (forall w, P w -> Q (f w) w) -> hoare P (gets f) Q E.
Proof. intros H w Hw. simpl. auto. Qed.

Lemma hoare_bind {A B} (P E : World -> Prop) (m : M A) (f : A -> M B) (Q : A -> World -> Prop)
    (R : B -> World -> Prop) :
  hoare P m Q E -> (forall a, hoare (Q a) (f a) R E) -> hoare P (bind m f) R E.
Proof.
  intros Hm Hf w Hw. unfold bind. specialize (Hm w Hw).
  destruct (m w) as [a w'| |]; auto. apply Hf. exact Hm.
Qed.

Lemma hoare_conseq {A} (P P' E E' : World -> Prop) (m : M A) (Q Q' : A -> World -> Prop) :
  hoare P' m Q' E' ->
  (forall w, P w -> P' w) -> (forall a w, Q' a w -> Q a w) ->
  (forall w, E' w -> E w) ->
  hoare P m Q E.
Proof.
  intros Hm HP HQ HE w Hw. specialize (Hm w (HP w Hw)).
  destruct (m w); auto.
Qed.

Lemma hoare_modify (P E : World -> Prop) (f : World -> World) (Q : unit -> World -> Prop) :
  (forall w, P w -> Q tt (f w)) -> hoare P (modify f) Q E.
Proof. intros H w Hw. simpl. auto. Qed.

Lemma preserves_bind {A B} I (m : M A) (f : A -> M B) :
  preserves I m -> (forall a, preserves I (f a)) -> preserves I (bind m f).
Proof. intros Hm Hf. eapply hoare_bind; [exact Hm | exact Hf]. Qed.

Lemma preserves_ret {A} I (a : A) : preserves I (ret a).
Proof. apply hoare_ret. auto. Qed.

Lemma preserves_raise {A} I e : preserves I (raise (A := A) e).
Proof. apply hoare_raise. auto. Qed.

Lemma preserves_gets {A} I (f : World -> A) : preserves I (gets f).
Proof. apply hoare_gets. auto. Qed.

Lemma preserves_modify I (f : World -> World) :
  (forall w, I w -> I (f w)) -> preserves I (modify f).
Proof. intros H. apply hoare_modify. auto. Qed.

Lemma preserves_mfor {A} I (l : list A) (f : A -> M unit) :
  (forall x, preserves I (f x)) -> preserves I (mfor l f).
Proof.
  intros Hf. induction l as [|x l IH]; simpl.
  - apply preserves_ret.
  - apply preserves_bind; [apply Hf | intros _; exact IH].
Qed.

(** Structural steps of a proof that a computation preserves an invariant. *)
Ltac pres_step :=
  lazymatch goal with
  | |- preserves _ (bind _ _) => apply preserves_bind; [| intros ?]
  | |- preserves _ (ret _) => apply preserves_ret
  | |- preserves _ (raise _) => apply preserves_raise
  | |- preserves _ (gets _) => apply preserves_gets
  | |- preserves _ (mfor _ _) => apply preserves_mfor; intros ?
  | |- preserves _ (match ?x with _ => _ end) => destruct x
  end.

(** ** The grid *)

Lemma out_of_bounds_set_cell g p l q :
  out_of_bounds (set_cell g p l) q = out_of_bounds g q.
Proof. reflexivity. Qed.

(** [move_agent] either returns in the state [moved], or raises and
    leaves the state as it found it. *)
Lemma move_agent_spec id p w :
  move_agent id p w =
    if out_of_bounds (grid w) p then Raise OutOfBounds w
    else match objects w !! id with
         | None => Raise KeyError w
         | Some a =>
             if out_of_bounds (grid w) (agent_pos a) then Raise IndexError w
             else if list_mem id (cell (grid w) (agent_pos a))
                  then Ok tt (moved id a p w)
                  else Raise ValueError w
         end.
Proof.
  unfold move_agent, bind, gets. 
  destruct (out_of_bounds (grid w) p) eqn:Hp; [reflexivity|].
  unfold get_agent at 1.
  destruct (objects w !! id) as [a|] eqn:Ha; [|reflexivity].
  unfold _remove_agent, bind, gets.
  destruct (out_of_bounds (grid w) (agent_pos a)) eqn:Hq; [reflexivity|].
  destruct (list_mem id (cell (grid w) (agent_pos a))) eqn:Hm; [|reflexivity].
  cbn. rewrite out_of_bounds_set_cell, Hp. cbn.
  unfold update_agent, bind, get_agent. cbn. rewrite Ha. reflexivity.
Qed.

(** ** Invariants of the object store

    A property of the stored objects that does not look at positions and
    holds of every lobster and heat spot survives everything lobsters,
    heat spots and the grid do.  The boat [skip] that is being stepped is
    exempt while its step runs. *)

Create HintDb pres.

Section Store.
Variable phi : Z -> option agent -> Prop.
Variable skip : option Z.
Hypothesis phi_pos :
  forall id a p, phi id (Some a) -> phi id (Some (agent_set_pos a p)).
Hypothesis phi_lobster :
  forall id l l', phi id (Some (ALobster l)) -> phi id (Some (ALobster l')).
Hypothesis phi_heat :
  forall id s s', phi id (Some (AHeat_Spot s)) -> phi id (Some (AHeat_Spot s')).

Lemma store_inv_objects w w' :
  objects w' = objects w -> store_inv phi skip w -> store_inv phi skip w'.
Proof. unfold store_inv. intros ->. auto. Qed.

Lemma store_inv_insert id a w :
  (Some id <> skip -> phi id (Some a)) ->
  store_inv phi skip w ->
  store_inv phi skip (set_objects (<[id := a]> (objects w)) w).
Proof.
  unfold store_inv. simpl. intros Ha Hw id' Hs.
  destruct (decide (id = id')) as [<-|Hne].
  - rewrite lookup_insert_eq. auto.
  - rewrite lookup_insert_ne by done. auto.
Qed.

Lemma store_inv_lookup id a w :
  store_inv phi skip w -> Some id <> skip -> objects w !! id = Some a -> phi id (Some a).
Proof. intros Hw Hs Ha. rewrite <- Ha. apply Hw, Hs. Qed.

Lemma pres_put_agent id a :
  (Some id <> skip -> phi id (Some a)) -> preserves (store_inv phi skip) (put_agent id a).
Proof. intros Ha. apply preserves_modify. intros w. apply store_inv_insert, Ha. Qed.

Lemma pres_update_agent id (f : agent -> agent) :
  (forall a, phi id (Some a) -> phi id (Some (f a))) ->
  preserves (store_inv phi skip) (update_agent id f).
Proof.
  intros Hf w Hw. unfold update_agent, bind, get_agent.
  destruct (objects w !! id) as [a|] eqn:Ha; [|exact Hw].
  apply (pres_put_agent id (f a)); [|exact Hw].
  intros Hs. apply Hf. eapply store_inv_lookup; eauto.
Qed.

Lemma pres_update_lobster id f : preserves (store_inv phi skip) (update_lobster id f).
Proof.
  intros w Hw. unfold update_lobster, bind, get_lobster, bind, get_agent.
  destruct (objects w !! id) as [a|] eqn:Ha; [|exact Hw].
  destruct a as [o|l|b|h|s]; try exact Hw.
  apply (pres_put_agent id (ALobster (f l))); [|exact Hw].
  intros Hs. eapply phi_lobster, store_inv_lookup; eauto.
Qed.

Lemma pres_update_heat_spot id f :
  preserves (store_inv phi skip) (update_heat_spot id f).
Proof.
  intros w Hw. unfold update_heat_spot, bind, get_heat_spot, bind, get_agent.
  destruct (objects w !! id) as [a|] eqn:Ha; [|exact Hw].
  destruct a as [o|l|b|h|s]; try exact Hw.
  apply (pres_put_agent id (AHeat_Spot (f s))); [|exact Hw].
  intros Hs. eapply phi_heat, store_inv_lookup; eauto.
Qed.

Lemma pres_update_boat id f :
  (Some id <> skip ->
   forall b, phi id (Some (ABoat b)) -> phi id (Some (ABoat (f b)))) ->
  preserves (store_inv phi skip) (update_boat id f).
Proof.
  intros Hf w Hw. unfold update_boat, bind, get_boat, bind, get_agent.
  destruct (objects w !! id) as [a|] eqn:Ha; [|exact Hw].
  destruct a as [o|l|b|h|s]; try exact Hw.
  apply (pres_put_agent id (ABoat (f b))); [|exact Hw].
  intros Hs. eapply Hf, store_inv_lookup; eauto.
Qed.

Lemma pres_update_boat_skip id f :
  skip = Some id -> preserves (store_inv phi skip) (update_boat id f).
Proof. intros Hs. apply pres_update_boat. congruence. Qed.

Lemma pres_modify_objects (f : World -> World) :
  (forall w, objects (f w) = objects w) ->
  preserves (store_inv phi skip) (modify f).
Proof. intros Hf. apply preserves_modify. intros w. apply store_inv_objects, Hf. Qed.

Lemma pres_get_agent id : preserves (store_inv phi skip) (get_agent id).
Proof. intros w Hw. unfold get_agent. destruct (objects w !! id); exact Hw. Qed.

Lemma pres_get_lobster id : preserves (store_inv phi skip) (get_lobster id).
Proof.
  unfold get_lobster. apply preserves_bind; [apply pres_get_agent|].
  intros []; (apply preserves_ret || apply preserves_raise).
Qed.

Lemma pres_get_boat id : preserves (store_inv phi skip) (get_boat id).
Proof.
  unfold get_boat. apply preserves_bind; [apply pres_get_agent|].
  intros []; (apply preserves_ret || apply preserves_raise).
Qed.

Lemma pres_get_home id : preserves (store_inv phi skip) (get_home id).
Proof.
  unfold get_home. apply preserves_bind; [apply pres_get_agent|].
  intros []; (apply preserves_ret || apply preserves_raise).
Qed.

Lemma pres_get_heat_spot id : preserves (store_inv phi skip) (get_heat_spot id).
Proof.
  unfold get_heat_spot. apply preserves_bind; [apply pres_get_agent|].
  intros []; (apply preserves_ret || apply preserves_raise).
Qed.

Lemma pres_draw : preserves (store_inv phi skip) draw.
Proof. intros w Hw. exact Hw. Qed.

Lemma pres_draw_model : preserves (store_inv phi skip) draw_model.
Proof. intros w Hw. exact Hw. Qed.

Hint Resolve pres_update_lobster pres_update_heat_spot pres_get_agent pres_get_lobster
  pres_get_boat pres_get_home pres_get_heat_spot pres_draw pres_draw_model : pres.

Ltac pres := repeat first [pres_step | solve [eauto with pres]].

Lemma pres_random_randint a b : preserves (store_inv phi skip) (random_randint a b).
Proof. unfold random_randint. pres. Qed.

Lemma pres_random_random : preserves (store_inv phi skip) random_random.
Proof. unfold random_random. pres. Qed.

Lemma pres_random_choice {A} (l : list A) :
  preserves (store_inv phi skip) (random_choice l).
Proof. unfold random_choice. pres. Qed.

Lemma pres_shuffle_from {A} i (x : list A) :
  preserves (store_inv phi skip) (shuffle_from i x).
Proof. revert x. induction i as [|i IH]; intros x; simpl; pres. Qed.

Lemma pres_random_shuffle {A} (x : list A) :
  preserves (store_inv phi skip) (random_shuffle x).
Proof. apply pres_shuffle_from. Qed.

Lemma pres_move_agent id p : preserves (store_inv phi skip) (move_agent id p).
Proof.
  intros w Hw. rewrite move_agent_spec.
  destruct (out_of_bounds (grid w) p); [exact Hw|].
  destruct (objects w !! id) as [a|] eqn:Ha; [|exact Hw].
  destruct (out_of_bounds (grid w) (agent_pos a)); [exact Hw|].
  destruct (list_mem id (cell (grid w) (agent_pos a))); [|exact Hw].
  apply (store_inv_insert id _ (set_grid (moved_grid (grid w) a id p) w)).
  - intros Hs. apply phi_pos. eapply store_inv_lookup; eauto.
  - apply (store_inv_objects w); [reflexivity | exact Hw].
Qed.

Hint Resolve pres_random_randint pres_random_random pres_random_choice
  pres_random_shuffle pres_move_agent : pres.

Lemma pres_Lobster_heat_locater id :
  preserves (store_inv phi skip) (Lobster_heat_locater id).
Proof. unfold Lobster_heat_locater. pres. Qed.

Lemma pres_Lobster_neighbor_move fuel id :
  preserves (store_inv phi skip) (Lobster_neighbor_move fuel id).
Proof.
  revert id. induction fuel as [|fuel IH]; intros id; simpl.
  - intros w Hw. exact I.
  - unfold World_size. pres.
Qed.

Hint Resolve pres_Lobster_heat_locater pres_Lobster_neighbor_move : pres.

Lemma pres_Lobster_move_north fuel id :
  preserves (store_inv phi skip) (Lobster_move_north fuel id).
Proof. unfold Lobster_move_north. pres. Qed.

Hint Resolve pres_Lobster_move_north : pres.

Lemma pres_Lobster_step fuel id :
  preserves (store_inv phi skip) (Lobster_step fuel id).
Proof. unfold Lobster_step. pres. Qed.

Lemma pres_Heat_Spot_step id :
  preserves (store_inv phi skip) (Heat_Spot_step id).
Proof. unfold Heat_Spot_step. pres. Qed.

(** The step of the boat [id] itself, which is exempt. *)

Lemma pres_Boat_able_to_return id :
  preserves (store_inv phi skip) (Boat_able_to_return id).
Proof. unfold Boat_able_to_return. pres. Qed.

Lemma pres_Boat_catch_loop id neighbors :
  skip = Some id -> preserves (store_inv phi skip) (Boat_catch_loop id neighbors).
Proof.
  intros Hs. induction neighbors as [|n rest IH]; simpl.
  - pres.
  - pres; apply pres_update_boat_skip; exact Hs.
Qed.

Lemma pres_Boat_catch id :
  skip = Some id -> preserves (store_inv phi skip) (Boat_catch id).
Proof. intros Hs. unfold Boat_catch. pres. apply pres_Boat_catch_loop, Hs. Qed.

Lemma pres_Boat_random_move_try id :
  preserves (store_inv phi skip) (Boat_random_move_try id).
Proof. unfold Boat_random_move_try. pres. Qed.

Lemma pres_Boat_random_move fuel id :
  preserves (store_inv phi skip) (Boat_random_move fuel id).
Proof.
  induction fuel as [|fuel IH]; simpl; intros w Hw; [exact I|].
  pose proof (pres_Boat_random_move_try id w Hw) as Ht.
  destruct (Boat_random_move_try id w) as [[] w'|e w'|]; auto.
  apply IH. exact Ht.
Qed.

Lemma pres_Boat_smart_move id :
  preserves (store_inv phi skip) (Boat_smart_move id).
Proof. unfold Boat_smart_move. pres. Qed.

Lemma pres_Boat_return_home id :
  preserves (store_inv phi skip) (Boat_return_home id).
Proof. unfold Boat_return_home. pres. Qed.

Lemma pres_Boat_in_storage id :
  preserves (store_inv phi skip) (Boat_in_storage id).
Proof. unfold Boat_in_storage. pres. Qed.

Hint Resolve pres_Boat_able_to_return pres_Boat_catch pres_Boat_random_move
  pres_Boat_smart_move pres_Boat_return_home pres_update_boat_skip : pres.

Lemma pres_Boat_step fuel id :
  skip = Some id -> preserves (store_inv phi skip) (Boat_step fuel id).
Proof.
  intros Hs. unfold Boat_step.
  pres; try (apply pres_modify_objects; reflexivity).
Qed.

(** The parts of [World.step] around the scheduler read the store and
    write counters only. *)

Lemma pres_get_cell_list_contents1 p :
  preserves (store_inv phi skip) (get_cell_list_contents1 p).
Proof. unfold get_cell_list_contents1. pres. Qed.

Hint Resolve pres_get_cell_list_contents1 pres_Boat_in_storage : pres.

Lemma pres_World_count_lobster : preserves (store_inv phi skip) World_count_lobster.
Proof.
  unfold World_count_lobster.
  pres; try (apply pres_modify_objects; reflexivity).
Qed.

Lemma pres_collect : preserves (store_inv phi skip) collect.
Proof. apply pres_modify_objects. reflexivity. Qed.

Lemma pres_bank_all agents :
  preserves (store_inv phi skip)
    (mfor agents (fun id =>
       a <- get_agent id ;;
       match a with
       | ABoat _ => Boat_in_storage id
       | _ => ret tt
       end)).
Proof. pres. Qed.

End Store.

(** ** What a boat's step does to the boat *)

Lemma hoare_exists_pre {A T} (P : T -> World -> Prop) (m : M A) Q E :
  (forall x, hoare (P x) m Q E) -> hoare (fun w => exists x, P x w) m Q E.
Proof. intros H w [x Hx]. exact (H x w Hx). Qed.

Lemma hoare_pure_pre {A} (F : Prop) (P : World -> Prop) (m : M A) Q E :
  (F -> hoare P m Q E) -> hoare (fun w => F /\ P w) m Q E.
Proof. intros H w [HF Hw]. exact (H HF w Hw). Qed.

Lemma hoare_gets_keep {A} (f : World -> A) P E :
  hoare P (gets f) (fun _ => P) E.
Proof. intros w Hw. exact Hw. Qed.

Lemma hoare_get_boat id b E :
  hoare (boat_at id b) (get_boat id) (fun r w => r = b /\ boat_at id b w) E.
Proof.
  intros w Hw. unfold get_boat, bind, get_agent. rewrite Hw. simpl. auto.
Qed.

Lemma hoare_update_boat id b f E :
  hoare (boat_at id b) (update_boat id f) (fun _ => boat_at id (f b)) E.
Proof.
  intros w Hw. unfold update_boat, bind, get_boat, bind, get_agent. rewrite Hw.
  unfold boat_at. simpl. apply lookup_insert_eq.
Qed.

Lemma hoare_update_boat_final id b f (Q : unit -> World -> Prop) E :
  (forall w, boat_at id (f b) w -> Q tt w) ->
  hoare (boat_at id b) (update_boat id f) Q E.
Proof.
  intros HQ. eapply hoare_conseq; [apply (hoare_update_boat id b f E) | auto | | auto].
  intros [] w Hw. apply HQ, Hw.
Qed.

(** Writing a lobster leaves the boats alone: the object written was
    read as a lobster the moment before. *)
Lemma hoare_update_lobster_boat id b n f :
  hoare (boat_at id b) (update_lobster n f) (fun _ => boat_at id b) (fun _ => True).
Proof.
  intros w Hw. unfold update_lobster, bind, get_lobster, bind, get_agent.
  destruct (objects w !! n) as [a|] eqn:Hn; [|exact I].
  destruct a as [o|l|b0|h|s]; try exact I.
  unfold boat_at. simpl. rewrite lookup_insert_ne; [exact Hw|].
  intros ->. unfold boat_at in Hw. congruence.
Qed.

Lemma hoare_move_boat id b p :
  hoare (boat_at id b) (move_agent id p)
        (fun _ => boat_at id (Boat_set_pos b p)) (boat_at id b).
Proof.
  intros w Hw. rewrite move_agent_spec, Hw.
  repeat (match goal with |- context [if ?c then _ else _] => destruct c end);
    try exact Hw.
  unfold boat_at, moved. simpl. apply lookup_insert_eq.
Qed.

Lemma hoare_move_boat_ex id b p (E : World -> Prop) :
  (forall w, boat_at id b w -> E w) ->
  hoare (boat_at id b) (move_agent id p)
        (fun _ w => exists q, boat_at id (Boat_set_pos b q) w) E.
Proof.
  intros HE. eapply hoare_conseq; [apply (hoare_move_boat id b p) | auto | | auto].
  intros a w Hw. eexists. exact Hw.
Qed.

Lemma hoare_modify_boat id b (f : World -> World) E :
  (forall w, objects (f w) = objects w) ->
  hoare (boat_at id b) (modify f) (fun _ => boat_at id b) E.
Proof. intros Hf w Hw. unfold boat_at. simpl. rewrite Hf. exact Hw. Qed.

Ltac hget_boat :=
  eapply hoare_bind; [apply hoare_get_boat | intros ?; apply hoare_pure_pre; intros ->].

Lemma hoare_Boat_smart_move id b :
  hoare (boat_at id b) (Boat_smart_move id)
        (fun _ w => exists p, boat_at id (Boat_set_pos b p) w) (fun _ => True).
Proof.
  unfold Boat_smart_move. hget_boat. apply hoare_move_boat_ex. auto.
Qed.

Lemma hoare_random_choice {A} (l : list A) P E :
  (forall w r, P w -> P (set_rand r w)) ->
  (forall w, P w -> E w) ->
  hoare P (random_choice l) (fun _ => P) E.
Proof.
  intros HP HE w Hw. unfold random_choice, bind, draw.
  destruct (l !! _); simpl; auto.
Qed.

Lemma hoare_Boat_random_move_try id b :
  hoare (boat_at id b) (Boat_random_move_try id)
        (fun _ w => exists p, boat_at id (Boat_set_pos b p) w) (boat_at id b).
Proof.
  unfold Boat_random_move_try. hget_boat.
  eapply hoare_bind; [apply hoare_gets_keep|]. intros g.
  eapply hoare_bind; [apply hoare_random_choice; auto|]. intros p.
  apply hoare_move_boat_ex. auto.
Qed.

Lemma hoare_Boat_random_move fuel id b :
  hoare (boat_at id b) (Boat_random_move fuel id)
        (fun _ w => exists p, boat_at id (Boat_set_pos b p) w) (fun _ => True).
Proof.
  induction fuel as [|fuel IH]; simpl; intros w Hw; [exact I|].
  pose proof (hoare_Boat_random_move_try id b w Hw) as Ht.
  destruct (Boat_random_move_try id w) as [[] w'|e w'|]; auto.
  apply IH. exact Ht.
Qed.

Lemma hoare_get_agent_keep id P :
  hoare P (get_agent id) (fun _ => P) (fun _ => True).
Proof. intros w Hw. unfold get_agent. destruct (objects w !! id); auto. Qed.

Lemma hoare_get_home_keep id P :
  hoare P (get_home id) (fun _ => P) (fun _ => True).
Proof.
  unfold get_home. eapply hoare_bind; [apply hoare_get_agent_keep|].
  intros []; (apply hoare_ret || apply hoare_raise); auto.
Qed.

Lemma hoare_shuffle_from_keep {A} i (x : list A) P E :
  (forall w r, P w -> P (set_model_random r w)) ->
  hoare P (shuffle_from i x) (fun _ => P) E.
Proof.
  intros HP. revert x. induction i as [|i IH]; intros x; simpl.
  - apply hoare_ret. auto.
  - eapply hoare_bind; [|intros d; apply IH].
    intros w Hw. simpl. auto.
Qed.

Lemma hoare_Boat_catch_loop id b neighbors :
  hoare (boat_at id b) (Boat_catch_loop id neighbors) (caught_one id b) (fun _ => True).
Proof.
  induction neighbors as [|n rest IH]; simpl.
  - apply hoare_ret. auto.
  - eapply hoare_bind; [apply hoare_get_agent_keep|]. intros a.
    destruct a as [o|l|b0|h|s]; try exact IH.
    destruct (l_state l); [|exact IH].
    eapply hoare_bind; [apply hoare_move_boat_ex; auto|]. intros ?.
    apply hoare_exists_pre. intros p.
    eapply hoare_bind; [apply hoare_update_boat|]. intros ?.
    eapply hoare_bind; [apply hoare_update_lobster_boat|]. intros ?.
    apply hoare_ret. intros w Hw. exists p. exact Hw.
Qed.

Lemma hoare_Boat_catch id b :
  hoare (boat_at id b) (Boat_catch id) (caught_one id b) (fun _ => True).
Proof.
  unfold Boat_catch. hget_boat.
  eapply hoare_bind; [apply hoare_gets_keep|]. intros g.
  apply hoare_Boat_catch_loop.
Qed.

Lemma hoare_Boat_return_home id b :
  hoare (boat_at id b) (Boat_return_home id)
        (fun _ w => exists p, boat_at id (Boat_set_pos b p) w) (fun _ => True).
Proof.
  unfold Boat_return_home. hget_boat.
  eapply hoare_bind; [apply hoare_gets_keep|]. intros g.
  eapply hoare_bind; [apply hoare_gets_keep|]. intros w0.
  eapply hoare_bind; [apply hoare_get_home_keep|]. intros home.
  destruct (omap _ _) as [|p0 ps]; [apply hoare_raise; auto|].
  eapply hoare_bind; [apply hoare_shuffle_from_keep; auto|]. intros shuffled.
  destruct shuffled as [|p ?]; [apply hoare_raise; auto|].
  apply hoare_move_boat_ex. auto.
Qed.

Lemma hoare_Boat_able_to_return id b E :
  hoare (boat_at id b) (Boat_able_to_return id)
        (fun r w => r = (b_amount b =? capacity (b_size b)) /\ boat_at id b w) E.
Proof.
  unfold Boat_able_to_return. hget_boat.
  destruct (b_size b); simpl;
    destruct (b_amount b =? _); simpl; apply hoare_ret; auto.
Qed.

(** One [Boat.step] changes the boat it steps as [Boat_trans] says. *)
Lemma hoare_Boat_step fuel id b :
  hoare (boat_at id b) (Boat_step fuel id)
        (fun _ w => exists b', boat_at id b' w /\ Boat_trans b b') (fun _ => True).
Proof.
  unfold Boat_step.
  eapply hoare_bind; [apply hoare_update_boat|]. intros ?.
  hget_boat.
  cbn [b_state b_size b_pos b_turn b_home b_unable b_amount Boat_set_turn].
  destruct (b_state b) eqn:Hst.
  - fold (eligible b). destruct (eligible b) eqn:Hel.
    + eapply hoare_bind.
      { instantiate (1 := fun _ w =>
          exists p, boat_at id (Boat_set_pos (Boat_set_turn b (b_turn b + 1)) p) w).
        destruct (_ <? _).
        - apply hoare_Boat_smart_move.
        - apply hoare_Boat_random_move. }
      intros ?. apply hoare_exists_pre. intros p.
      eapply hoare_bind; [apply hoare_Boat_catch | intros c].
      destruct c; unfold caught_one.
      * apply hoare_exists_pre. intros q.
        eapply hoare_bind; [apply hoare_Boat_able_to_return|]. intros r.
        apply hoare_pure_pre. intros ->. cbn.
        destruct (b_amount b + 1 =? capacity (b_size b)) eqn:Hcap.
        -- apply hoare_update_boat_final.
           intros w Hw. eexists. split; [exact Hw|].
           constructor; cbn; rewrite ?Hst, ?Hel, ?Hcap; auto.
        -- apply hoare_ret. intros w Hw. eexists. split; [exact Hw|].
           constructor; cbn; rewrite ?Hst, ?Hel, ?Hcap; auto.
      * apply hoare_ret. intros w Hw. eexists. split; [exact Hw|].
        constructor; cbn; rewrite ?Hst, ?Hel; auto.
    + eapply hoare_bind; [apply hoare_update_boat|]. intros ?.
      apply hoare_update_boat_final.
      intros w Hw. eexists. split; [exact Hw|].
      constructor; cbn; rewrite ?Hst, ?Hel; auto.
  - eapply hoare_bind; [apply hoare_get_home_keep|]. intros home.
    destruct (bool_decide _).
    + eapply hoare_bind.
      { instantiate (1 := fun _ w =>
          boat_at id (Boat_set_state (Boat_set_turn b (b_turn b + 1))
                        (if b_unable b then Return else Search)) w).
        destruct (b_unable b); cbn.
        - apply hoare_ret. intros w Hw.
          replace (Boat_set_state (Boat_set_turn b (b_turn b + 1)) Return)
            with (Boat_set_turn b (b_turn b + 1)); [exact Hw|].
          unfold Boat_set_state, Boat_set_turn. cbn. rewrite Hst. reflexivity.
        - apply hoare_update_boat. }
      intros ?. hget_boat. cbn.
      eapply hoare_bind.
      { instantiate (1 := fun _ w =>
          boat_at id (Boat_set_state (Boat_set_turn b (b_turn b + 1))
                        (if b_unable b then Return else Search)) w).
        destruct (b_size b); apply hoare_modify_boat; reflexivity. }
      intros ?. apply hoare_update_boat_final.
      intros w Hw. eexists. split; [exact Hw|].
      constructor; cbn; rewrite ?Hst; auto.
    + eapply hoare_conseq;
        [apply (hoare_Boat_return_home id (Boat_set_turn b (b_turn b + 1))) | auto | | auto].
      intros ? w [p Hw]. eexists. split; [exact Hw|].
      constructor; cbn; rewrite ?Hst; auto.
Qed.

(** ** Invariants of a run

    A property of the stored objects that, besides, follows a boat through
    [Boat_trans] holds after every [World.step] that returns. *)

Lemma preserves_safe {A} I (m : M A) : preserves I m -> safe I m.
Proof. intros H. eapply hoare_conseq; [exact H | auto ..]. Qed.

Lemma safe_bind {A B} I (m : M A) (f : A -> M B) :
  safe I m -> (forall a, safe I (f a)) -> safe I (bind m f).
Proof. intros Hm Hf. eapply hoare_bind; [exact Hm | exact Hf]. Qed.

Lemma safe_mfor {A} I (l : list A) (f : A -> M unit) :
  (forall x, safe I (f x)) -> safe I (mfor l f).
Proof.
  intros Hf. induction l as [|x l IH]; simpl.
  - apply hoare_ret. auto.
  - apply safe_bind; [apply Hf | intros _; exact IH].
Qed.

Section Run.
Variable phi : Z -> option agent -> Prop.
Hypothesis phi_pos :
  forall id a p, phi id (Some a) -> phi id (Some (agent_set_pos a p)).
Hypothesis phi_lobster :
  forall id l l', phi id (Some (ALobster l)) -> phi id (Some (ALobster l')).
Hypothesis phi_heat :
  forall id s s', phi id (Some (AHeat_Spot s)) -> phi id (Some (AHeat_Spot s')).
Hypothesis phi_trans :
  forall id b b', phi id (Some (ABoat b)) -> Boat_trans b b' -> phi id (Some (ABoat b')).

Lemma store_inv_skip id w : store_inv phi None w -> store_inv phi (Some id) w.
Proof. intros H id' _. apply H. discriminate. Qed.

Lemma safe_Boat_step fuel id b w :
  boat_at id b w -> store_inv phi None w ->
  match Boat_step fuel id w with
  | Ok _ w' => store_inv phi None w'
  | _ => True
  end.
Proof.
  intros Hb Hw.
  pose proof (pres_Boat_step phi (Some id) phi_pos phi_lobster phi_heat fuel id eq_refl
                w (store_inv_skip id w Hw)) as H1.
  pose proof (hoare_Boat_step fuel id b w Hb) as H2.
  destruct (Boat_step fuel id w) as [[] w'| |]; auto.
  destruct H2 as (b' & Hb' & Ht).
  intros id' _.
  destruct (decide (id' = id)) as [->|Hne].
  - unfold boat_at in Hb'. rewrite Hb'.
    eapply phi_trans; [|exact Ht]. unfold boat_at in Hb. rewrite <- Hb.
    apply Hw. discriminate.
  - apply H1. congruence.
Qed.

Lemma safe_Agent_step fuel id : safe (store_inv phi None) (Agent_step fuel id).
Proof.
  intros w Hw. unfold Agent_step, bind, get_agent.
  destruct (objects w !! id) as [a|] eqn:Ha; [|exact I].
  destruct a as [o|l|b|h|s]; simpl; auto.
  - apply (preserves_safe _ _ (pres_Lobster_step phi None phi_pos phi_lobster phi_heat fuel id) w Hw).
  - apply (safe_Boat_step fuel id b w Ha Hw).
  - apply (preserves_safe _ _ (pres_Heat_Spot_step phi None phi_pos phi_lobster phi_heat id) w Hw).
Qed.

Lemma safe_Scheduler_step fuel : safe (store_inv phi None) (Scheduler_step fuel).
Proof.
  unfold Scheduler_step.
  apply safe_bind; [apply preserves_safe, preserves_gets|]. intros keys.
  apply safe_bind; [apply safe_mfor, safe_Agent_step|]. intros _.
  apply safe_bind.
  { apply safe_mfor. intros id. apply preserves_safe.
    apply preserves_bind; [|intros; apply preserves_ret].
    apply (pres_get_agent phi None phi_pos phi_lobster phi_heat). }
  intros _. apply preserves_safe.
  apply (pres_modify_objects phi None phi_pos phi_lobster phi_heat). reflexivity.
Qed.

Lemma safe_World_step fuel : safe (store_inv phi None) (World_step fuel).
Proof.
  unfold World_step.
  apply safe_bind; [apply safe_Scheduler_step|]. intros _.
  apply preserves_safe.
  apply preserves_bind;
    [apply (pres_World_count_lobster phi None phi_pos phi_lobster phi_heat)|]. intros _.
  apply preserves_bind; [apply (pres_collect phi None phi_pos phi_lobster phi_heat)|].
  intros _.
  apply preserves_bind; [apply preserves_gets|]. intros t.
  apply preserves_bind; [apply preserves_gets|]. intros n.
  destruct (t =? n); [|apply preserves_ret].
  apply preserves_bind; [apply preserves_gets|]. intros agents.
  apply preserves_bind;
    [apply (pres_bank_all phi None phi_pos phi_lobster phi_heat)|]. intros _.
  apply preserves_bind; [apply (pres_collect phi None phi_pos phi_lobster phi_heat)|].
  intros _.
  apply (pres_modify_objects phi None phi_pos phi_lobster phi_heat). reflexivity.
Qed.

Lemma safe_World_steps fuel n : safe (store_inv phi None) (World_steps fuel n).
Proof.
  induction n as [|n IH]; simpl.
  - apply hoare_ret. auto.
  - apply safe_bind; [apply safe_World_step | intros _; exact IH].
Qed.

(** The same for the remainder of a scheduler pass. *)
Lemma safe_pass fuel ids : safe (store_inv phi None) (mfor ids (Agent_step fuel)).
Proof. apply safe_mfor, safe_Agent_step. Qed.

End Run.

(** ** What [World.__init__] builds *)

Lemma fresh_pos (id : Z) a p :
  each fresh id (Some a) -> each fresh id (Some (agent_set_pos a p)).
Proof. destruct a; simpl; auto. Qed.

Lemma fresh_lobster (id : Z) (l l' : Lobster) :
  each fresh id (Some (ALobster l)) -> each fresh id (Some (ALobster l')).
Proof. auto. Qed.

Lemma fresh_heat (id : Z) (s s' : Heat_Spot) :
  each fresh id (Some (AHeat_Spot s)) -> each fresh id (Some (AHeat_Spot s')).
Proof. auto. Qed.

Ltac init_lemma L :=
  apply (L (each fresh) None fresh_pos fresh_lobster fresh_heat).

Lemma init_put_agent id a :
  fresh a -> preserves (store_inv (each fresh) None) (put_agent id a).
Proof. intros Ha. init_lemma pres_put_agent. auto. Qed.

Lemma init_modify (f : World -> World) :
  (forall w, objects (f w) = objects w) ->
  preserves (store_inv (each fresh) None) (modify f).
Proof. init_lemma pres_modify_objects. Qed.

Lemma init_set_size id s :
  preserves (store_inv (each fresh) None)
            (update_boat id (fun b => Boat_set_size b s)).
Proof. init_lemma pres_update_boat. intros _ b Hb. exact Hb. Qed.

Lemma init__place_agent p id :
  preserves (store_inv (each fresh) None) (_place_agent p id).
Proof.
  unfold _place_agent. apply preserves_bind; [apply preserves_gets|]. intros g.
  destruct (out_of_bounds g p); [apply preserves_raise|].
  apply init_modify. reflexivity.
Qed.

Lemma init_place_agent id p :
  preserves (store_inv (each fresh) None) (place_agent id p).
Proof.
  unfold place_agent. apply preserves_bind; [apply init__place_agent|]. intros _.
  init_lemma pres_update_agent. intros a. apply fresh_pos.
Qed.

Lemma init_Scheduler_add id :
  preserves (store_inv (each fresh) None) (Scheduler_add id).
Proof. apply init_modify. reflexivity. Qed.

Lemma init_next_id : preserves (store_inv (each fresh) None) next_id.
Proof.
  unfold next_id. apply preserves_bind; [apply init_modify; reflexivity|].
  intros _. apply preserves_gets.
Qed.

Lemma init_new_object (mk : M agent) :
  hoare (store_inv (each fresh) None) mk
        (fun a w => fresh a /\ store_inv (each fresh) None w)
        (store_inv (each fresh) None) ->
  preserves (store_inv (each fresh) None) (new_object mk).
Proof.
  intros Hmk. unfold new_object.
  apply preserves_bind; [apply init_next_id|]. intros id.
  eapply hoare_bind; [exact Hmk|]. intros a.
  apply hoare_pure_pre. intros Ha.
  apply preserves_bind; [apply init_put_agent, Ha|]. intros _.
  apply preserves_ret.
Qed.

Lemma init_new_object_ret a :
  fresh a -> preserves (store_inv (each fresh) None) (new_object (ret a)).
Proof. intros Ha. apply init_new_object. apply hoare_ret. auto. Qed.

Lemma init_new_Home p : preserves (store_inv (each fresh) None) (new_Home p).
Proof.
  unfold new_Home.
  apply preserves_bind; [apply init_new_object_ret; reflexivity|]. intros id.
  apply preserves_bind; [apply init_place_agent|]. intros _.
  apply preserves_bind; [apply init_Scheduler_add|]. intros _.
  apply preserves_ret.
Qed.

Lemma init_new_Ocean p : preserves (store_inv (each fresh) None) (new_Ocean p).
Proof.
  unfold new_Ocean.
  apply preserves_bind; [apply init_new_object_ret; exact I|]. intros id.
  apply preserves_bind; [apply init_place_agent|]. intros _.
  apply init_Scheduler_add.
Qed.

Lemma init_new_Heat_Spot p :
  preserves (store_inv (each fresh) None) (new_Heat_Spot p).
Proof.
  unfold new_Heat_Spot.
  apply preserves_bind; [apply init_new_object_ret; exact I|]. intros id.
  apply preserves_bind; [apply init_place_agent|]. intros _.
  apply init_Scheduler_add.
Qed.

Lemma init_new_Lobster : preserves (store_inv (each fresh) None) new_Lobster.
Proof.
  unfold new_Lobster.
  apply preserves_bind; [apply preserves_gets|]. intros h.
  apply preserves_bind; [init_lemma pres_random_randint|]. intros nx.
  apply preserves_bind; [init_lemma pres_random_randint|]. intros ny.
  apply preserves_bind.
  { apply init_new_object.
    eapply hoare_bind; [init_lemma pres_random_randint|]. intros timer.
    apply hoare_ret. intros w Hw. split; [exact I | exact Hw]. }
  intros id.
  apply preserves_bind; [apply init_place_agent|]. intros _.
  apply init_Scheduler_add.
Qed.

Lemma init_new_Boat P1 P2 P3 :
  preserves (store_inv (each fresh) None) (new_Boat P1 P2 P3).
Proof.
  unfold new_Boat.
  apply preserves_bind; [apply preserves_gets|]. intros wd.
  apply preserves_bind; [init_lemma pres_random_randint|]. intros nx.
  apply preserves_bind; [init_lemma pres_random_randint|]. intros ny.
  apply preserves_bind; [init_lemma pres_random_random|]. intros r.
  apply preserves_bind; [init_lemma pres_random_random|]. intros x.
  apply preserves_bind; [apply init_new_object_ret; simpl; auto|]. intros id.
  apply preserves_bind; [apply preserves_gets|]. intros d.
  apply preserves_bind.
  { destruct (Qltb r d); [apply init_set_size|].
    destruct (Qltb d r); [apply init_set_size|apply preserves_ret]. }
  intros _.
  apply preserves_bind; [apply init_place_agent|]. intros _.
  apply init_Scheduler_add.
Qed.

Lemma init_World_init_body num_lobsters num_boats :
  preserves (store_inv (each fresh) None) (World_init_body num_lobsters num_boats).
Proof.
  unfold World_init_body.
  apply preserves_bind; [apply init_new_Home|]. intros Port1.
  apply preserves_bind; [apply init_new_Home|]. intros Port2.
  apply preserves_bind; [apply init_new_Home|]. intros Port3.
  apply preserves_bind; [apply preserves_gets|]. intros g.
  apply preserves_bind.
  { apply preserves_mfor. intros x. apply preserves_mfor. intros y.
    apply init_new_Ocean. }
  intros _.
  apply preserves_bind; [apply preserves_gets|]. intros wd.
  apply preserves_bind; [apply preserves_mfor; intros i; apply init_new_Heat_Spot|].
  intros _.
  apply preserves_bind; [apply preserves_mfor; intros i; apply init_new_Boat|].
  intros _.
  apply preserves_bind; [apply preserves_mfor; intros i; apply init_new_Lobster|].
  intros _. apply init_modify. reflexivity.
Qed.

(** Every object of a newly built [World] is [fresh]. *)
Lemma World_init_fresh height width num_lobsters num_boats movement density sim_length
    tape model_tape w :
  World_init height width num_lobsters num_boats movement density sim_length
             tape model_tape = Ok tt w ->
  store_inv (each fresh) None w.
Proof.
  unfold World_init. intros Hw.
  match type of Hw with ?m ?w0 = _ =>
    pose proof (init_World_init_body num_lobsters num_boats w0) as H end.
  rewrite Hw in H. apply H.
  intros id _. simpl. rewrite lookup_empty. exact I.
Qed.

Lemma store_inv_mono (phi psi : Z -> option agent -> Prop) skip w :
  (forall id oa, phi id oa -> psi id oa) -> store_inv phi skip w -> store_inv psi skip w.
Proof. intros H Hw id Hs. apply H, Hw, Hs. Qed.

(** ** The sample runs return *)

Lemma ok_outcome (r : result unit) : is_ok r = true -> r = Ok tt (outcome_world r).
Proof. destruct r as [[] w| |]; simpl; intros H; (reflexivity || discriminate). Qed.

Lemma init_A_ok : init_A 30 = Ok tt (world_A0 30).
Proof. apply ok_outcome. vm_compute. reflexivity. Qed.

Lemma steps_A_ok : World_steps 50 5 (world_A0 30) = Ok tt (world_A 30 5).
Proof. apply ok_outcome. vm_compute. reflexivity. Qed.

(** * The claims *)

(** ** C10: ports are never credited *)

Lemma home_empty_pos id a p :
  each home_empty id (Some a) -> each home_empty id (Some (agent_set_pos a p)).
Proof. destruct a; simpl; auto. Qed.

Lemma fresh_home_empty id oa : each fresh id oa -> each home_empty id oa.
Proof. destruct oa as [[]|]; simpl; auto. Qed.

(** C10.  In every run, at every tick and between any two agents of a
    tick, every port's own [amount] is 0: nothing calls [Home.add], the
    landings go to the World's [big_count] and [small_count]. *)
Theorem C10_port_amount_stays_zero
    height width num_lobsters num_boats movement density sim_length tape model_tape
    w0 fuel n w1 ids w id h :
  World_init height width num_lobsters num_boats movement density sim_length
             tape model_tape = Ok tt w0 ->
  World_steps fuel n w0 = Ok tt w1 ->
  mfor ids (Agent_step fuel) w1 = Ok tt w ->
  home_at id h w ->
  h_amount h = 0.
Proof.
  intros H0 H1 H2 Hh.
  assert (Hinv0 : store_inv (each home_empty) None w0).
  { eapply store_inv_mono; [apply fresh_home_empty|].
    eapply World_init_fresh; exact H0. }
  assert (Hinv1 : store_inv (each home_empty) None w1).
  { pose proof (safe_World_steps (each home_empty) home_empty_pos
                  ltac:(auto) ltac:(auto) ltac:(auto) fuel n w0 Hinv0) as H.
    rewrite H1 in H. exact H. }
  assert (Hinv : store_inv (each home_empty) None w).
  { pose proof (safe_pass (each home_empty) home_empty_pos
                  ltac:(auto) ltac:(auto) ltac:(auto) fuel ids w1 Hinv1) as H.
    rewrite H2 in H. exact H. }
  pose proof (Hinv id ltac:(discriminate)) as H. unfold home_at in Hh.
  rewrite Hh in H. exact H.
Qed.

Lemma C10_witness :
  init_A 30 = Ok tt (world_A0 30) /\
  World_steps 50 5 (world_A0 30) = Ok tt (world_A 30 5) /\
  mfor [] (Agent_step 50) (world_A 30 5) = Ok tt (world_A 30 5) /\
  home_at 1 (mkHome (13, 0) 0 "big") (world_A 30 5) /\
  h_amount (mkHome (13, 0) 0 "big") = 0.
Proof.
  assert (Hh : home_at 1 (mkHome (13, 0) 0 "big") (world_A 30 5))
    by (vm_compute; reflexivity).
  refine (conj init_A_ok (conj steps_A_ok (conj eq_refl (conj Hh _)))).
  exact (C10_port_amount_stays_zero 40 40 1 1 (3 # 10) (6 # 10) 30 tape_A []
           (world_A0 30) 50 5 (world_A 30 5) [] (world_A 30 5) 1 _
           init_A_ok steps_A_ok eq_refl Hh).
Defined.

(** ** C2: what a boat holds *)








Lemma init_B_ok : init_B = Ok tt world_B0.
Proof. apply ok_outcome. vm_compute. reflexivity. Qed.

Lemma steps_B_ok : World_steps 50 5 world_B0 = Ok tt (world_B 5).
Proof. apply ok_outcome. vm_compute. reflexivity. Qed.


(** That state is the one the run is in after its fifth tick. *)
Lemma world_B_reached :
  init_B = Ok tt world_B0 /\ World_steps 50 5 world_B0 = Ok tt (world_B 5).
Proof. split; [exact init_B_ok | exact steps_B_ok]. Qed.

(** ** C8: a boat found too far out *)

Lemma get_boat_at id b w : boat_at id b w -> get_boat id w = Ok b w.
Proof. intros Hb. unfold get_boat, bind, get_agent. rewrite Hb. reflexivity. Qed.

Lemma get_home_at id h w : home_at id h w -> get_home id w = Ok h w.
Proof. intros Hh. unfold get_home, bind, get_agent. rewrite Hh. reflexivity. Qed.

Lemma update_boat_at id b f w :
  boat_at id b w ->
  update_boat id f w = Ok tt (set_objects (<[id := ABoat (f b)]> (objects w)) w).
Proof. intros Hb. unfold update_boat, bind. rewrite (get_boat_at id b w Hb). reflexivity. Qed.

Lemma boat_at_insert id b o w : boat_at id b (set_objects (<[id := ABoat b]> o) w).
Proof. unfold boat_at. simpl. apply lookup_insert_eq. Qed.

Lemma docked_entry_pos id id' a p :
  docked_entry id id' (Some a) -> docked_entry id id' (Some (agent_set_pos a p)).
Proof.
  intros H Hid. destruct (H Hid) as (b & [= ->] & Hd).
  exists (Boat_set_pos b p). split; [reflexivity | exact Hd].
Qed.

Lemma docked_entry_lobster id id' l l' :
  docked_entry id id' (Some (ALobster l)) -> docked_entry id id' (Some (ALobster l')).
Proof. intros H Hid. destruct (H Hid) as (b & [=] & _). Qed.

Lemma docked_entry_heat id id' s s' :
  docked_entry id id' (Some (AHeat_Spot s)) -> docked_entry id id' (Some (AHeat_Spot s')).
Proof. intros H Hid. destruct (H Hid) as (b & [=] & _). Qed.

Lemma docked_trans b b' : docked b -> Boat_trans b b' -> docked b'.
Proof.
  intros [Hu Hs] [_ _ _ Hcases]. rewrite Hs, Hu in Hcases. unfold docked.
  destruct Hcases as [-> [[_ ->]|[_ ->]]]; auto.
Qed.

Lemma docked_entry_trans id id' b b' :
  docked_entry id id' (Some (ABoat b)) -> Boat_trans b b' ->
  docked_entry id id' (Some (ABoat b')).
Proof.
  intros H Ht Hid. destruct (H Hid) as (b0 & [= <-] & Hd).
  exists b'. split; [reflexivity | eapply docked_trans; eauto].
Qed.

Lemma docked_at_store id w : docked_at id w <-> store_inv (docked_entry id) None w.
Proof.
  split.
  - intros (b & Hb & Hd) id' _ ->. exists b. split; [exact Hb | exact Hd].
  - intros H. exact (H id ltac:(discriminate) eq_refl).
Qed.

Lemma docked_World_steps id fuel n w w' :
  docked_at id w -> World_steps fuel n w = Ok tt w' -> docked_at id w'.
Proof.
  intros Hd Hs. apply docked_at_store. apply docked_at_store in Hd.
  pose proof (safe_World_steps (docked_entry id) (docked_entry_pos id)
                (docked_entry_lobster id) (docked_entry_heat id)
                (docked_entry_trans id) fuel n w Hd) as H.
  rewrite Hs in H. exact H.
Qed.

Lemma docked_pass id fuel ids w w' :
  docked_at id w -> mfor ids (Agent_step fuel) w = Ok tt w' -> docked_at id w'.
Proof.
  intros Hd Hs. apply docked_at_store. apply docked_at_store in Hd.
  pose proof (safe_pass (docked_entry id) (docked_entry_pos id)
                (docked_entry_lobster id) (docked_entry_heat id)
                (docked_entry_trans id) fuel ids w Hd) as H.
  rewrite Hs in H. exact H.
Qed.

(** The step that finds a [Small] boat at row 26 or beyond. *)
Lemma Boat_step_too_far fuel id b w :
  boat_at id b w -> b_size b = Small -> b_state b = Search -> 26 <= (b_pos b).2 ->
  exists w1,
    Boat_step fuel id w = Ok tt w1 /\
    boat_at id (Boat_set_state (Boat_set_unable (Boat_set_turn b (b_turn b + 1)) true)
                               Return) w1.
Proof.
  intros Hb Hsize Hst Hrow. unfold Boat_step.
  unfold bind at 1. rewrite (update_boat_at id b _ w Hb).
  unfold bind at 1. erewrite get_boat_at by apply boat_at_insert.
  cbn [b_state b_size b_pos b_turn Boat_set_turn]. rewrite Hst, Hsize.
  replace ((b_pos b).2 <? 26) with false by (symmetry; apply Z.ltb_ge; exact Hrow).
  cbn [bool_decide decide_rel andb orb]. simpl.
  unfold bind at 1. erewrite update_boat_at by apply boat_at_insert.
  erewrite update_boat_at by apply boat_at_insert.
  eexists. split; [reflexivity|]. apply boat_at_insert.
Qed.

(** The step of a docked boat at its port. *)
Lemma Boat_step_docked fuel id b home w :
  boat_at id b w -> docked b -> home_at (b_home b) home w -> b_pos b = h_pos home ->
  exists w',
    Boat_step fuel id w = Ok tt w' /\
    boat_at id (Boat_set_amount (Boat_set_turn b (b_turn b + 1)) 0) w' /\
    banked b w w'.
Proof.
  intros Hb [Hu Hst] Hh Hpos. unfold Boat_step.
  unfold bind at 1. rewrite (update_boat_at id b _ w Hb).
  unfold bind at 1. erewrite get_boat_at by apply boat_at_insert.
  cbn [b_state b_size b_pos b_turn b_home b_unable Boat_set_turn]. rewrite Hst, Hu.
  unfold bind at 1. erewrite get_home_at; cycle 1.
  { unfold home_at. simpl. rewrite lookup_insert_ne; [exact Hh|].
    intros Heq. unfold boat_at, home_at in *. rewrite <- Heq in Hh. congruence. }
  rewrite Hpos, bool_decide_eq_true_2 by reflexivity.
  cbn [negb]. unfold bind at 1, ret.
  unfold bind at 1. erewrite get_boat_at by apply boat_at_insert.
  cbn [b_size b_amount Boat_set_turn].
  unfold banked. destruct (b_size b) eqn:Hsize.
  - unfold bind at 1, modify.
    erewrite update_boat_at by apply boat_at_insert.
    eexists. split; [reflexivity|]. split; [apply boat_at_insert|]. simpl. auto.
  - unfold bind at 1, modify.
    erewrite update_boat_at by apply boat_at_insert.
    eexists. split; [reflexivity|]. split; [apply boat_at_insert|]. simpl. auto.
Qed.

(** C8.  The step that finds a [Small] boat in [Search] at row 26 or
    beyond sets its [unable] flag and sends it to [Return]; from then on,
    through the rest of the tick and every later tick, the boat is flagged
    and in [Return], never in [Search] again; and its step at the home
    port credits what it holds to the count of its size, empties it and
    leaves it in [Return]. *)
Theorem C8_unable_boat_never_searches_again fuel id b w :
  boat_at id b w -> b_size b = Small -> b_state b = Search -> 26 <= (b_pos b).2 ->
  exists w1,
    Boat_step fuel id w = Ok tt w1 /\
    docked_at id w1 /\
    (forall ids w2, mfor ids (Agent_step fuel) w1 = Ok tt w2 -> docked_at id w2) /\
    (forall w2 n w3,
       docked_at id w2 -> World_steps fuel n w2 = Ok tt w3 -> docked_at id w3) /\
    (forall w2 b2 home,
       boat_at id b2 w2 -> docked b2 ->
       home_at (b_home b2) home w2 -> b_pos b2 = h_pos home ->
       exists w3,
         Boat_step fuel id w2 = Ok tt w3 /\
         boat_at id (Boat_set_amount (Boat_set_turn b2 (b_turn b2 + 1)) 0) w3 /\
         docked_at id w3 /\
         banked b2 w2 w3).
Proof.
  intros Hb Hsize Hst Hrow.
  destruct (Boat_step_too_far fuel id b w Hb Hsize Hst Hrow) as (w1 & Hstep & Hb1).
  assert (Hd1 : docked_at id w1).
  { eexists. split; [exact Hb1|]. split; reflexivity. }
  exists w1. split; [exact Hstep|]. split; [exact Hd1|].
  split; [|split].
  - intros ids w2. apply docked_pass, Hd1.
  - intros w2 n w3. apply docked_World_steps.
  - intros w2 b2 home Hb2 Hd2 Hh Hpos.
    destruct (Boat_step_docked fuel id b2 home w2 Hb2 Hd2 Hh Hpos) as (w3 & Hs3 & Hb3 & Hbk).
    exists w3. split; [exact Hs3|]. split; [exact Hb3|]. split; [|exact Hbk].
    eexists. split; [exact Hb3|]. destruct Hd2 as [Hu Hs]. split; simpl; assumption.
Qed.

Lemma C8_witness :
  boat_at 1644 (mkBoat 1 (5, 26) Small Search true 0 23 false) (world_E 23) /\
  b_size (mkBoat 1 (5, 26) Small Search true 0 23 false) = Small /\
  b_state (mkBoat 1 (5, 26) Small Search true 0 23 false) = Search /\
  26 <= (b_pos (mkBoat 1 (5, 26) Small Search true 0 23 false)).2 /\
  exists w1, Boat_step 50 1644 (world_E 23) = Ok tt w1 /\ docked_at 1644 w1.
Proof.
  assert (Hb : boat_at 1644 (mkBoat 1 (5, 26) Small Search true 0 23 false) (world_E 23))
    by (vm_compute; reflexivity).
  assert (Hrow : 26 <= (b_pos (mkBoat 1 (5, 26) Small Search true 0 23 false)).2)
    by (simpl; lia).
  refine (conj Hb (conj eq_refl (conj eq_refl (conj Hrow _)))).
  destruct (C8_unable_boat_never_searches_again 50 1644 _ _ Hb eq_refl eq_refl Hrow)
    as (w1 & Hs & Hd & _).
  exists w1. split; [exact Hs | exact Hd].
Defined.

(** ** C4: forced banking *)

(** C4.  [in_storage] adds what the boat holds to [big_count], whatever
    the size of the boat, and leaves [small_count] alone. *)
Theorem C4_in_storage_credits_big_count id b w :
  boat_at id b w ->
  exists w',
    Boat_in_storage id w = Ok tt w' /\
    big_count w' = big_count w + b_amount b /\
    small_count w' = small_count w /\
    objects w' = objects w.
Proof.
  intros Hb. unfold Boat_in_storage, bind. rewrite (get_boat_at id b w Hb).
  eexists. split; [reflexivity|]. simpl. auto.
Qed.

Lemma C4_witness :
  boat_at 1644 (mkBoat 1 (5, 5) Small Search true 1 5 false) (world_A 30 5) /\
  exists w',
    Boat_in_storage 1644 (world_A 30 5) = Ok tt w' /\
    big_count w' = big_count (world_A 30 5) + 1 /\
    small_count w' = small_count (world_A 30 5).
Proof.
  assert (Hb : boat_at 1644 (mkBoat 1 (5, 5) Small Search true 1 5 false) (world_A 30 5))
    by (vm_compute; reflexivity).
  split; [exact Hb|].
  destruct (C4_in_storage_credits_big_count 1644 _ _ Hb) as (w' & Hs & Hbig & Hsmall & _).
  exists w'. split; [exact Hs|]. split; [exact Hbig | exact Hsmall].
Defined.

(** ** C5: the heat spot *)








(** ** C6: where a lobster goes *)

Lemma get_lobster_at id l w : lobster_at id l w -> get_lobster id w = Ok l w.
Proof. intros Hl. unfold get_lobster, bind, get_agent. rewrite Hl. reflexivity. Qed.







Lemma list_mem_In x l : list_mem x l = true <-> In x l.
Proof.
  induction l as [|y l IH]; simpl; [split; [discriminate | tauto]|].
  rewrite orb_true_iff, IH, Z.eqb_eq. split; intros [H|H]; auto.
Qed.

(** Where the heat spots around a lobster all have the same history, as
    the heat spots of a World do that were built and stepped together,
    that history and the union of the histories set the same rows apart. *)
Lemma rows_avoiding_union w l h hs s :
  heat_neighbors w l = h :: hs ->
  heat_spot_at h s w ->
  (forall h', In h' (h :: hs) -> tracks_of w h' = hs_tracks s) ->
  rows_avoiding (union_tracks w (heat_neighbors w l)) (grid w) l
  = rows_avoiding (hs_tracks s) (grid w) l.
Proof.
  intros Hn Hs Hall. unfold rows_avoiding. apply filter_ext. intros p. f_equal.
  apply eq_true_iff_eq. rewrite !list_mem_In. rewrite Hn. unfold union_tracks.
  rewrite <- !list_elem_of_In, list_elem_of_bind. split.
  - intros (h' & Hin & Hh'). apply list_elem_of_In in Hh'.
    rewrite (Hall h' Hh') in Hin. exact Hin.
  - intros Hin. exists h. split; [|left].
    rewrite (Hall h (or_introl eq_refl)). exact Hin.
Qed.


(** In that state the lobster does move, to (1, 5). *)
Lemma world_6_lobster_moves :
  rows_avoiding
    (union_tracks world_6
       (heat_neighbors world_6 (mkLobster (1, 4) Wander true 0 4 [0; 1; 2; 3; 4] [] 4)))
    (grid world_6) (mkLobster (1, 4) Wander true 0 4 [0; 1; 2; 3; 4] [] 4) = [] /\
  is_ok (Lobster_move_north 50 3 world_6) = true /\
  lobster_at 3 (mkLobster (1, 5) Wander true 0 4 [0; 1; 2; 3; 4] [] 4)
             (outcome_world (Lobster_move_north 50 3 world_6)).
Proof. repeat split; vm_compute; reflexivity. Qed.



(** ** C1: a caught lobster *)

Lemma steps_A1_ok : World_steps 50 1 (world_A0 30) = Ok tt (world_A 30 1).
Proof. apply ok_outcome. vm_compute. reflexivity. Qed.

(** [caught], were it called, would look for the lobster in the lobster's
    own scheduler, where nothing is registered. *)
Lemma Lobster_caught_raises id l w :
  lobster_at id l w -> l_state l = Caught -> list_mem id (l_schedule l) = false ->
  Lobster_caught id w = Raise KeyError w.
Proof.
  intros Hl Hs Hm. unfold Lobster_caught, bind.
  rewrite (get_lobster_at id l w Hl), Hs, Hm. reflexivity.
Qed.

(** C1 fails on the code.  In the sample run the boat catches lobster
    1645 in tick 1; the lobster, in state [Caught], is at (5, 5) after
    ticks 1 to 4 and the grid moves it to (5, 6) in tick 5; it is in the
    World's schedule all along, and [caught] would raise on it. *)
Theorem C1_caught_lobster_is_moved_and_scheduled :
  init_A 30 = Ok tt (world_A0 30) /\
  World_steps 50 5 (world_A0 30) = Ok tt (world_A 30 5) /\
  probe_lobster 1645 (world_A 30 1)
  = (Some (ALobster (mkLobster (5, 5) Caught true 0 1 [0; 1] [] 1)), true, true) /\
  probe_lobster 1645 (world_A 30 4)
  = (Some (ALobster (mkLobster (5, 5) Caught true 0 4 [0; 1; 2; 3; 4] [] 4)),
     true, true) /\
  probe_lobster 1645 (world_A 30 5)
  = (Some (ALobster (mkLobster (5, 6) Caught true 0 5 [0; 1; 2; 3; 4; 5] [] 5)),
     true, true) /\
  Lobster_caught 1645 (world_A 30 1) = Raise KeyError (world_A 30 1).
Proof.
  split; [exact init_A_ok|]. split; [exact steps_A_ok|].
  split; [vm_compute; reflexivity|]. split; [vm_compute; reflexivity|].
  split; [vm_compute; reflexivity|].
  apply (Lobster_caught_raises 1645 (mkLobster (5, 5) Caught true 0 1 [0; 1] [] 1));
    [vm_compute; reflexivity | reflexivity | reflexivity].
Qed.

(** ** C3: the last tick *)

Lemma init_A1_ok : init_A 1 = Ok tt (world_A0 1).
Proof. apply ok_outcome. vm_compute. reflexivity. Qed.

(** C3 fails on the code.  With a horizon of 1 the sample run ends in its
    first tick, in which the [Small] boat catches one lobster: the forced
    banking adds the 1 to [big_count], not to [small_count], the boat
    still holds it afterwards, and the run is marked finished. *)
Theorem C3_forced_banking_of_a_small_boat :
  init_A 1 = Ok tt (world_A0 1) /\
  World_step 50 (world_A0 1) = Ok tt (outcome_world (World_step 50 (world_A0 1))) /\
  (let w := outcome_world (World_step 50 (world_A0 1)) in
   (s_time (schedule w), sim_length w, objects w !! 1644,
    big_count (world_A0 1), small_count (world_A0 1),
    big_count w, small_count w, running w))
  = (1, 1, Some (ABoat (mkBoat 1 (5, 4) Small Search true 1 1 false)),
     0, 0, 1, 0, false).
Proof.
  split; [exact init_A1_ok|].
  split; [apply ok_outcome; vm_compute; reflexivity|].
  vm_compute. reflexivity.
Qed.

(** ** C7: the recount *)

Lemma range_in_bounds n x : In x (range n) -> 0 <= x < n.
Proof.
  unfold range. intros H. apply list_elem_of_In, elem_of_seqZ in H. lia.
Qed.

Lemma set_lobster_count_twice a b w :
  set_lobster_count a (set_lobster_count b w) = set_lobster_count a w.
Proof. reflexivity. Qed.

Lemma count_agents_spec ids w :
  (forall n, In n ids -> is_Some (objects w !! n)) ->
  mfor ids count_agent w
  = Ok tt (set_lobster_count
             (lobster_count w + Z.of_nat (length (List.filter (is_wander w) ids))) w).
Proof.
  revert w. induction ids as [|n ids IH]; intros w Hall.
  - simpl. unfold ret. f_equal. destruct w; unfold set_lobster_count; simpl.
    f_equal. lia.
  - assert (Hrest : forall w', objects w' = objects w ->
              forall n, In n ids -> is_Some (objects w' !! n)).
    { intros w' -> m Hm. apply Hall. right. exact Hm. }
    cbn [mfor]. unfold bind at 1. unfold count_agent at 1. unfold bind at 1, get_agent.
    destruct (Hall n (or_introl eq_refl)) as [a Ha]. rewrite Ha.
    cbn [List.filter]. unfold is_wander at 1. rewrite Ha.
    destruct a as [o|l|b|h|s].
    + unfold ret at 1. rewrite IH by (apply Hrest; reflexivity). reflexivity.
    + destruct (l_state l) eqn:Hst.
      * unfold modify at 1. rewrite IH by (apply Hrest; reflexivity).
        rewrite bool_decide_eq_true_2 by reflexivity.
        rewrite set_lobster_count_twice. cbn [lobster_count set_lobster_count length].
        f_equal. f_equal. 
        change (is_wander (set_lobster_count (lobster_count w + 1) w)) with (is_wander w). lia.
      * unfold ret at 1. rewrite IH by (apply Hrest; reflexivity).
        rewrite bool_decide_eq_false_2 by discriminate. reflexivity.
    + unfold ret at 1. rewrite IH by (apply Hrest; reflexivity). reflexivity.
    + unfold ret at 1. rewrite IH by (apply Hrest; reflexivity). reflexivity.
    + unfold ret at 1. rewrite IH by (apply Hrest; reflexivity). reflexivity.
Qed.

Lemma wander_in_cons w p cells :
  wander_in w (p :: cells)
  = Z.of_nat (length (List.filter (is_wander w) (cell (grid w) p))) + wander_in w cells.
Proof.
  unfold wander_in. cbn [mbind list_bind]. 
  change (list_bind _ _ (cell (grid w)) cells) with (p ← cells; cell (grid w) p).
  rewrite List.filter_app, length_app. lia.
Qed.

Lemma wander_in_app w c1 c2 : wander_in w (c1 ++ c2) = wander_in w c1 + wander_in w c2.
Proof.
  induction c1 as [|p c1 IH]; [reflexivity|].
  rewrite <- app_comm_cons, !wander_in_cons, IH. lia.
Qed.

Lemma count_row_spec x ys w :
  grid_closed w ->
  (forall y, In y ys -> out_of_bounds (grid w) (x, y) = false) ->
  mfor ys (fun y =>
    spot_agents <- get_cell_list_contents1 (x, y) ;; mfor spot_agents count_agent) w
  = Ok tt (set_lobster_count (lobster_count w + wander_in w (map (pair x) ys)) w).
Proof.
  revert w. induction ys as [|y ys IH]; intros w Hc Hb.
  - simpl. unfold ret. f_equal. destruct w; unfold set_lobster_count; simpl.
    f_equal. unfold wander_in. simpl. lia.
  - cbn [mfor]. unfold bind at 1. unfold bind at 1.
    unfold get_cell_list_contents1 at 1, bind at 1, gets at 1.
    rewrite (Hb y (or_introl eq_refl)). unfold ret at 1.
    rewrite count_agents_spec by (intros n Hn; eapply Hc; exact Hn).
    rewrite IH; [| exact Hc | intros y' Hy'; apply Hb; right; exact Hy'].
    rewrite set_lobster_count_twice. cbn [map]. rewrite wander_in_cons.
    cbn [lobster_count set_lobster_count].
    change (wander_in (set_lobster_count _ w)) with (wander_in w).
    f_equal. f_equal. lia.
Qed.

Lemma count_rows_spec xs ys w :
  grid_closed w ->
  (forall x y, In x xs -> In y ys -> out_of_bounds (grid w) (x, y) = false) ->
  mfor xs (fun x => mfor ys (fun y =>
    spot_agents <- get_cell_list_contents1 (x, y) ;; mfor spot_agents count_agent)) w
  = Ok tt (set_lobster_count
             (lobster_count w + wander_in w (x ← xs; y ← ys; [(x, y)])) w).
Proof.
  revert w. induction xs as [|x xs IH]; intros w Hc Hb.
  - simpl. unfold ret. f_equal. destruct w; unfold set_lobster_count; simpl.
    f_equal. unfold wander_in. simpl. lia.
  - cbn [mfor]. unfold bind at 1.
    rewrite count_row_spec; [| exact Hc | intros y Hy; apply Hb; [left; reflexivity | exact Hy]].
    rewrite IH; [| exact Hc | intros x' y' Hx' Hy'; apply Hb; [right; exact Hx' | exact Hy']].
    rewrite set_lobster_count_twice. cbn [lobster_count set_lobster_count].
    change (wander_in (set_lobster_count _ w)) with (wander_in w).
    f_equal. f_equal.
    change (x0 ← x :: xs; y ← ys; [(x0, y)])
      with ((y ← ys; [(x, y)]) ++ (x0 ← xs; y ← ys; [(x0, y)])).
    rewrite wander_in_app.
    replace (y ← ys; [(x, y)]) with (map (pair x) ys); [lia|].
    clear. induction ys as [|y ys IHy]; [reflexivity | simpl; f_equal; exact IHy].
Qed.

(** [count_lobster] counts the [Wander] lobsters of the cells of rows 0 to
    [height - 2]. *)
Lemma World_count_lobster_spec w :
  grid_closed w ->
  width w <= g_width (grid w) -> height w - 1 <= g_height (grid w) ->
  World_count_lobster w = Ok tt (set_lobster_count (wander_in w (scanned w)) w).
Proof.
  intros Hc Hw Hh. unfold World_count_lobster.
  unfold bind at 1, modify at 1. unfold bind at 1, gets at 1. unfold bind at 1, gets at 1.
  cbn [width height set_lobster_count].
  change (fun n : Z => a <- get_agent n ;; _) with count_agent.
  rewrite count_rows_spec.
  - rewrite set_lobster_count_twice. reflexivity.
  - exact Hc.
  - intros x y Hx Hy. apply range_in_bounds in Hx, Hy.
    unfold out_of_bounds. cbn [fst snd grid set_lobster_count].
    repeat (apply orb_false_intro); (apply Z.ltb_ge || apply Z.leb_gt); lia.
Qed.

Lemma scanned_below_top w p : In p (scanned w) -> p.2 < height w - 1.
Proof.
  unfold scanned. intros H. apply list_elem_of_In, list_elem_of_bind in H.
  destruct H as (x & H & _). apply list_elem_of_bind in H.
  destruct H as (y & H & Hy). apply list_elem_of_In in Hy. apply range_in_bounds in Hy.
  apply list_elem_of_In in H. destruct H as [<-|[]]. simpl. lia.
Qed.


(** C7 fails on the code.  A lobster in the top row, in state [Wander]
    and on the grid, is not counted: the scan of [count_lobster] stops one
    row short. *)
Theorem C7_count_misses_the_top_row :
  init_C = Ok tt world_C0 /\
  World_step 50 world_C0 = Ok tt (outcome_world (World_step 50 world_C0)) /\
  (let w := outcome_world (World_step 50 world_C0) in
   (objects w !! 1644, list_mem 1644 (cell (grid w) (5, 39)), g_height (grid w),
    wander_on_grid w, lobster_count w))
  = (Some (ALobster (mkLobster (5, 39) Wander true 0 1 [0; 1] [] 1)), true, 40, 1, 0).
Proof.
  split; [apply ok_outcome; vm_compute; reflexivity|].
  split; [apply ok_outcome; vm_compute; reflexivity|].
  vm_compute. reflexivity.
Qed.

(** ** C9: the top row *)

Lemma raises_inv {A} e (r : result A) : raises e r = true -> exists w, r = Raise e w.
Proof.
  destruct r as [a w|e' w|]; simpl; try discriminate.
  intros H. apply bool_decide_eq_true in H. subst. eauto.
Qed.

(** In [Search], a [Big] boat in the top row whose depth limit lies
    beyond that row is sent one row further by [smart_move], which the grid
    refuses. *)
Lemma Boat_step_leaves_grid fuel id b w :
  boat_at id b w -> b_size b = Big -> b_state b = Search ->
  (b_pos b).2 = g_height (grid w) - 1 ->
  (b_pos b).2 < 4 + (b_turn b + 1) / 5 ->
  out_of_bounds (grid w) ((b_pos b).1, g_height (grid w)) = true /\
  Boat_step fuel id w
  = Raise OutOfBounds
      (set_objects (<[id := ABoat (Boat_set_turn b (b_turn b + 1))]> (objects w)) w).
Proof.
  intros Hb Hsize Hst Hrow Hlim.
  assert (Hout : out_of_bounds (grid w) ((b_pos b).1, g_height (grid w)) = true).
  { unfold out_of_bounds. cbn [fst snd].
    replace (g_height (grid w) <=? g_height (grid w)) with true
      by (symmetry; apply Z.leb_le; lia).
    apply orb_true_r. }
  split; [exact Hout|].
  unfold Boat_step.
  unfold bind at 1. rewrite (update_boat_at id b _ w Hb).
  unfold bind at 1. erewrite get_boat_at by apply boat_at_insert.
  cbn [b_state b_size b_pos b_turn Boat_set_turn]. rewrite Hst, Hsize.
  cbn [bool_decide decide_rel andb orb].
  replace (bool_decide (Big = Big)) with true
    by (symmetry; apply bool_decide_eq_true_2; reflexivity).
  rewrite orb_true_r.
  replace ((b_pos b).2 <? 4 + (b_turn b + 1) / 5) with true
    by (symmetry; apply Z.ltb_lt; exact Hlim).
  unfold bind at 1. unfold Boat_smart_move.
  unfold bind at 1. erewrite get_boat_at by apply boat_at_insert.
  cbn [b_pos Boat_set_turn]. rewrite move_agent_spec. cbn [grid set_objects].
  replace ((b_pos b).2 + 1) with (g_height (grid w)) by lia.
  rewrite Hout. reflexivity.
Qed.

Lemma init_D_ok : init_D = Ok tt world_D0.
Proof. apply ok_outcome. vm_compute. reflexivity. Qed.

Lemma probe_D_179 :
  probe_D (World_steps 50 179 world_D0)
  = (true, Some (ABoat (mkBoat 1 (5, 39) Big Search true 0 179 false)),
     40, 40, 40, true, true).
Proof. vm_compute. reflexivity. Qed.

(** C9.  A state in which [Boat.step] raises is reached by a run: built
    by [World.__init__] with one [Big] boat and stepped 179 times, the
    World has the boat in [Search] in the top row, row [height - 1], below
    its depth limit; [smart_move] then asks the grid for [(x, height)],
    which is out of bounds, and neither [Boat.step] nor the [World.step]
    around it handles the exception. *)
Theorem C9_boat_step_raises_in_the_top_row :
  exists w b,
    init_D = Ok tt world_D0 /\
    World_steps 50 179 world_D0 = Ok tt w /\
    boat_at 1644 b w /\
    list_mem 1644 (cell (grid w) (b_pos b)) = true /\
    b_size b = Big /\ b_state b = Search /\
    g_height (grid w) = height w /\
    (b_pos b).2 = height w - 1 /\
    height w - 1 < 4 + (b_turn b + 1) / 5 /\
    out_of_bounds (grid w) ((b_pos b).1, height w) = true /\
    (exists w', Boat_step 50 1644 w = Raise OutOfBounds w') /\
    (exists w', World_step 50 w = Raise OutOfBounds w').
Proof.
  set (r := World_steps 50 179 world_D0).
  assert (Hok : is_ok r = true)
    by exact (f_equal (fun t => t.1.1.1.1.1.1) probe_D_179).
  assert (Hboat : boat_at 1644 (mkBoat 1 (5, 39) Big Search true 0 179 false)
                    (outcome_world r))
    by exact (f_equal (fun t => t.1.1.1.1.1.2) probe_D_179).
  assert (Hh : height (outcome_world r) = 40)
    by exact (f_equal (fun t => t.1.1.1.1.2) probe_D_179).
  assert (Hgh : g_height (grid (outcome_world r)) = 40)
    by exact (f_equal (fun t => t.1.1.2) probe_D_179).
  assert (Hmem : list_mem 1644 (cell (grid (outcome_world r)) (5, 39)) = true)
    by exact (f_equal (fun t => t.1.2) probe_D_179).
  assert (Hraise : raises OutOfBounds (World_step 50 (outcome_world r)) = true)
    by exact (f_equal (fun t => t.2) probe_D_179).
  clearbody r.
  exists (outcome_world r), (mkBoat 1 (5, 39) Big Search true 0 179 false).
  assert (Hrow : (b_pos (mkBoat 1 (5, 39) Big Search true 0 179 false)).2
                 = g_height (grid (outcome_world r)) - 1)
    by (rewrite Hgh; reflexivity).
  destruct (Boat_step_leaves_grid 50 1644 _ _ Hboat eq_refl eq_refl Hrow
              ltac:(reflexivity)) as [Hout Hstep].
  split; [exact init_D_ok|].
  split; [apply ok_outcome; exact Hok|].
  split; [exact Hboat|]. split; [exact Hmem|].
  split; [reflexivity|]. split; [reflexivity|].
  split; [rewrite Hgh, Hh; reflexivity|].
  split; [rewrite Hh; reflexivity|].
  split; [rewrite Hh; reflexivity|].
  split; [rewrite Hh; rewrite Hgh in Hout; exact Hout|].
  split; [eexists; exact Hstep|].
  apply raises_inv. exact Hraise.
Qed.

Lemma stable_rtc R P w w' : stable R P -> rtc R w w' -> P w -> P w'.
Proof. intros HS H. induction H; eauto. Qed.

Section Effects.
Variable R : relation World.

Lemma effects_ret {A} P (a : A) : effects R P (ret a).
Proof. intros w _. simpl. reflexivity. Qed.

Lemma effects_raise {A} P e : effects R P (raise (A := A) e).
Proof. intros w _. simpl. reflexivity. Qed.

Lemma effects_gets {A} P (f : World -> A) : effects R P (gets f).
Proof. intros w _. simpl. reflexivity. Qed.

Lemma effects_modify P (f : World -> World) :
  (forall w, P w -> R w (f w)) -> effects R P (modify f).
Proof. intros H w Hw. simpl. apply rtc_once. auto. Qed.

Lemma effects_weaken {A} (P P' : World -> Prop) (m : M A) :
  (forall w, P w -> P' w) -> effects R P' m -> effects R P m.
Proof. intros H Hm w Hw. apply Hm. auto. Qed.

Lemma effects_bind {A B} P (m : M A) (f : A -> M B) :
  stable R P -> effects R P m -> (forall a, effects R P (f a)) -> effects R P (bind m f).
Proof.
  intros HS Hm Hf w Hw. unfold bind. specialize (Hm w Hw).
  destruct (m w) as [a w'| |]; auto.
  specialize (Hf a w' (stable_rtc _ _ _ _ HS Hm Hw)).
  destruct (f a w'); auto; etrans; eauto.
Qed.

Lemma effects_mfor {A} P (l : list A) (f : A -> M unit) :
  stable R P -> (forall x, effects R P (f x)) -> effects R P (mfor l f).
Proof.
  intros HS Hf. induction l as [|x l IH]; simpl.
  - apply effects_ret.
  - apply effects_bind; auto.
Qed.

Lemma effects_get_agent P id : effects R P (get_agent id).
Proof. intros w _. unfold get_agent. destruct (objects w !! id); reflexivity. Qed.

(** Reading the object [id] as one of class [k] tells its class to what follows. *)
Lemma effects_get_lobster {B} P id (f : Lobster -> M B) :
  (forall l, effects R (fun w => P w /\ kinded KLobster id w) (f l)) ->
  effects R P (bind (get_lobster id) f).
Proof.
  intros Hf w Hw. unfold bind, get_lobster, bind, get_agent.
  destruct (objects w !! id) as [[]|] eqn:Ha; simpl; try reflexivity.
  apply Hf. split; [exact Hw|]. unfold kinded, has_kind. rewrite Ha. reflexivity.
Qed.

Lemma effects_get_boat {B} P id (f : Boat -> M B) :
  (forall b, effects R (fun w => P w /\ kinded KBoat id w) (f b)) ->
  effects R P (bind (get_boat id) f).
Proof.
  intros Hf w Hw. unfold bind, get_boat, bind, get_agent.
  destruct (objects w !! id) as [[]|] eqn:Ha; simpl; try reflexivity.
  apply Hf. split; [exact Hw|]. unfold kinded, has_kind. rewrite Ha. reflexivity.
Qed.

Lemma effects_get_heat_spot {B} P id (f : Heat_Spot -> M B) :
  (forall s, effects R (fun w => P w /\ kinded KHeat_Spot id w) (f s)) ->
  effects R P (bind (get_heat_spot id) f).
Proof.
  intros Hf w Hw. unfold bind, get_heat_spot, bind, get_agent.
  destruct (objects w !! id) as [[]|] eqn:Ha; simpl; try reflexivity.
  apply Hf. split; [exact Hw|]. unfold kinded, has_kind. rewrite Ha. reflexivity.
Qed.

Lemma effects_get_home {B} P id (f : Home -> M B) :
  (forall h, effects R P (f h)) -> effects R P (bind (get_home id) f).
Proof.
  intros Hf w Hw. unfold bind, get_home, bind, get_agent.
  destruct (objects w !! id) as [[]|] eqn:Ha; simpl; try reflexivity.
  apply Hf. exact Hw.
Qed.

End Effects.

Lemma has_kind_insert w w' id a a' k id' :
  objects w !! id = Some a -> kind_of a' = kind_of a ->
  objects w' = <[id := a']> (objects w) ->
  has_kind w' k id' = has_kind w k id'.
Proof.
  intros Ha Hk Ho. unfold has_kind. rewrite Ho.
  destruct (decide (id' = id)) as [->|Hne].
  - rewrite lookup_insert_eq, Ha, Hk. reflexivity.
  - rewrite lookup_insert_ne by congruence. reflexivity.
Qed.

Lemma kind_of_set_pos a p : kind_of (agent_set_pos a p) = kind_of a.
Proof. destruct a; reflexivity. Qed.

Lemma Agent_effect_kind w w' k id :
  Agent_effect w w' -> has_kind w' k id = has_kind w k id.
Proof.
  intros [w1 w2 H|b w1 w2 H|s w1 w2 H]; inversion H; subst; try reflexivity;
    (eapply has_kind_insert; [eassumption | | reflexivity]; reflexivity).
Qed.

Lemma stable_true R : stable R (fun _ => True).
Proof. intros w w' _ _. exact I. Qed.

Lemma stable_and R (P Q : World -> Prop) :
  stable R P -> stable R Q -> stable R (fun w => P w /\ Q w).
Proof. intros HP HQ w w' H [? ?]. split; eauto. Qed.

Section Kinds.
Variable R : relation World.
Hypothesis R_sub : forall w w', R w w' -> Agent_effect w w'.

Lemma stable_kinded k id : stable R (kinded k id).
Proof.
  intros w w' H Hk. unfold kinded in *.
  rewrite (Agent_effect_kind w w' k id (R_sub _ _ H)). exact Hk.
Qed.

End Kinds.

Lemma kinded_lobster id w : kinded KLobster id w -> exists l, lobster_at id l w.
Proof.
  unfold kinded, has_kind, lobster_at. destruct (objects w !! id) as [[]|]; try discriminate.
  eauto.
Qed.

Lemma kinded_boat id w : kinded KBoat id w -> exists b, boat_at id b w.
Proof.
  unfold kinded, has_kind, boat_at. destruct (objects w !! id) as [[]|]; try discriminate.
  eauto.
Qed.

Lemma kinded_heat_spot id w : kinded KHeat_Spot id w -> exists s, heat_spot_at id s w.
Proof.
  unfold kinded, has_kind, heat_spot_at.
  destruct (objects w !! id) as [[]|]; try discriminate. eauto.
Qed.

Lemma effects_seq {A B} R P (m : M A) (f : A -> M B) :
  effects R P m -> (forall a, effects R (fun _ => True) (f a)) -> effects R P (bind m f).
Proof.
  intros Hm Hf w Hw. unfold bind. specialize (Hm w Hw).
  destruct (m w) as [a w'| |]; auto.
  specialize (Hf a w' I). destruct (f a w'); auto; etrans; eauto.
Qed.

Lemma effects_get_boat_at {B} R P id (f : Boat -> M B) :
  (forall b, effects R (fun w => P w /\ boat_at id b w) (f b)) ->
  effects R P (bind (get_boat id) f).
Proof.
  intros Hf w Hw. unfold bind, get_boat, bind, get_agent.
  destruct (objects w !! id) as [[]|] eqn:Ha; simpl; try reflexivity.
  apply Hf. split; [exact Hw|exact Ha].
Qed.

Lemma effects_sub {A} (R R' : relation World) P (m : M A) :
  (forall w w', R w w' -> R' w w') -> effects R P m -> effects R' P m.
Proof.
  intros HR Hm w Hw. specialize (Hm w Hw).
  destruct (m w); auto; eapply rtc_subrel; eauto.
Qed.

Ltac solve_stable R_sub :=
  repeat apply stable_and; first [apply stable_true | apply (stable_kinded _ R_sub)].

Ltac eff_step R_sub :=
  lazymatch goal with
  | |- effects _ _ (bind (get_lobster _) _) => apply effects_get_lobster; intros ?
  | |- effects _ _ (bind (get_boat _) _) => apply effects_get_boat; intros ?
  | |- effects _ _ (bind (get_heat_spot _) _) => apply effects_get_heat_spot; intros ?
  | |- effects _ _ (bind (get_home _) _) => apply effects_get_home; intros ?
  | |- effects _ _ (bind _ _) => apply effects_bind; [solve_stable R_sub | | intros ?]
  | |- effects _ _ (ret _) => apply effects_ret
  | |- effects _ _ (raise _) => apply effects_raise
  | |- effects _ _ (gets _) => apply effects_gets
  | |- effects _ _ World_size => apply effects_gets
  | |- effects _ _ (get_agent _) => apply effects_get_agent
  | |- effects _ _ (mfor _ _) => apply effects_mfor; [solve_stable R_sub | intros ?]
  | |- effects _ _ (match ?x with _ => _ end) => destruct x
  end.

(** *** Lobsters *)

Lemma Lobster_sub w w' : Lobster_effect w w' -> Agent_effect w w'.
Proof. apply ae_lobster. Qed.

Lemma Boat_sub id w w' : Boat_effect id w w' -> Agent_effect w w'.
Proof. apply ae_boat. Qed.

Lemma Heat_Spot_sub id w w' : Heat_Spot_effect id w w' -> Agent_effect w w'.
Proof. apply ae_heat_spot. Qed.

Lemma effects_draw_lobster P : effects Lobster_effect P draw.
Proof. intros w _. simpl. apply rtc_once. constructor. Qed.

Lemma effects_update_lobster P id f :
  (forall l, l_pos (f l) = l_pos l /\ l_state (f l) = l_state l /\
             l_schedule (f l) = l_schedule l) ->
  effects Lobster_effect P (update_lobster id f).
Proof.
  intros Hf w _. unfold update_lobster, bind, get_lobster, bind, get_agent.
  destruct (objects w !! id) as [[]|] eqn:Ha; simpl; try reflexivity.
  apply rtc_once. destruct (Hf l) as (? & ? & ?). apply le_write with (l := l); auto.
Qed.

Lemma effects_move_lobster (P : World -> Prop) id p :
  (forall w, P w -> kinded KLobster id w) ->
  effects Lobster_effect P (move_agent id p).
Proof.
  intros HP w Hw. destruct (kinded_lobster _ _ (HP w Hw)) as [l Hl].
  rewrite move_agent_spec. unfold lobster_at in Hl.
  destruct (out_of_bounds (grid w) p) eqn:Hp; [reflexivity|].
  rewrite Hl. simpl.
  destruct (out_of_bounds (grid w) (l_pos l)) eqn:Hq; [reflexivity|].
  destruct (list_mem id (cell (grid w) (l_pos l))) eqn:Hm; [|reflexivity].
  apply rtc_once. apply le_move; auto.
Qed.

Ltac eff_l := repeat eff_step Lobster_sub.

Lemma effects_Lobster_heat_locater id :
  effects Lobster_effect (fun _ => True) (Lobster_heat_locater id).
Proof. unfold Lobster_heat_locater. eff_l. Qed.

Lemma effects_random_random_lobster P : effects Lobster_effect P random_random.
Proof.
  unfold random_random. apply effects_seq; [apply effects_draw_lobster|].
  intros ?. apply effects_ret.
Qed.

Lemma effects_random_choice_lobster {A} P (l : list A) :
  effects Lobster_effect P (random_choice l).
Proof.
  unfold random_choice. apply effects_seq; [apply effects_draw_lobster|].
  intros ?. eff_l.
Qed.

Lemma effects_Lobster_neighbor_move fuel id :
  effects Lobster_effect (fun _ => True) (Lobster_neighbor_move fuel id).
Proof.
  revert id. induction fuel as [|fuel IH]; intros id; simpl.
  - intros w _. exact I.
  - apply effects_get_lobster; intros self.
    apply effects_bind; [solve_stable Lobster_sub | apply effects_gets | intros g].
    apply effects_bind; [solve_stable Lobster_sub | apply effects_gets | intros w0].
    apply effects_seq.
    + eff_l. eapply effects_weaken; [|apply IH]. intros; exact I.
    + intros ?. apply effects_seq; [apply effects_random_random_lobster|].
      intros r. destruct (Qltb r (1 # 4)); [|apply effects_ret].
      eff_l. apply effects_move_lobster. tauto.
Qed.

Lemma effects_Lobster_move_north fuel id :
  effects Lobster_effect (fun _ => True) (Lobster_move_north fuel id).
Proof.
  unfold Lobster_move_north.
  apply effects_seq; [apply effects_Lobster_heat_locater|]. intros heat.
  eff_l.
  - apply effects_random_choice_lobster.
  - apply effects_move_lobster. tauto.
  - eapply effects_weaken; [|apply effects_Lobster_neighbor_move]. intros; exact I.
Qed.

Lemma effects_Lobster_step fuel id :
  effects Lobster_effect (fun _ => True) (Lobster_step fuel id).
Proof.
  unfold Lobster_step.
  apply effects_seq; [apply effects_update_lobster; intros; auto|]. intros ?.
  apply effects_seq; [apply effects_Lobster_move_north|]. intros ?.
  apply effects_seq; [|intros ?]; apply effects_update_lobster; intros; auto.
Qed.

(** *** Boats *)

Ltac eff_b id := repeat eff_step (Boat_sub id).

Lemma effects_draw_boat id P : effects (Boat_effect id) P draw.
Proof. intros w _. simpl. apply rtc_once. constructor. Qed.

Lemma effects_draw_model_boat id P : effects (Boat_effect id) P draw_model.
Proof. intros w _. simpl. apply rtc_once. constructor. Qed.

Lemma effects_random_choice_boat {A} id P (l : list A) :
  effects (Boat_effect id) P (random_choice l).
Proof.
  unfold random_choice. apply effects_seq; [apply effects_draw_boat|].
  intros ?. eff_b id.
Qed.

Lemma effects_shuffle_from_boat {A} id P i (x : list A) :
  effects (Boat_effect id) P (shuffle_from i x).
Proof.
  revert P x. induction i as [|i IH]; intros P x; simpl.
  - apply effects_ret.
  - apply effects_seq; [apply effects_draw_model_boat|]. intros ?. apply IH.
Qed.

Lemma effects_update_boat P id f :
  (forall b, b_pos (f b) = b_pos b /\ b_home (f b) = b_home b /\ b_size (f b) = b_size b) ->
  effects (Boat_effect id) P (update_boat id f).
Proof.
  intros Hf w _. unfold update_boat, bind, get_boat, bind, get_agent.
  destruct (objects w !! id) as [[]|] eqn:Ha; simpl; try reflexivity.
  apply rtc_once. destruct (Hf b) as (? & ? & ?). apply be_write with (b := b); auto.
Qed.

Lemma effects_catch_lobster P id n :
  effects (Boat_effect id) P (update_lobster n (fun l => Lobster_set_state l Caught)).
Proof.
  intros w _. unfold update_lobster, bind, get_lobster, bind, get_agent.
  destruct (objects w !! n) as [[]|] eqn:Ha; simpl; try reflexivity.
  apply rtc_once. apply be_catch. exact Ha.
Qed.

Lemma effects_move_boat (P : World -> Prop) id p :
  (forall w, P w -> kinded KBoat id w) ->
  effects (Boat_effect id) P (move_agent id p).
Proof.
  intros HP w Hw. destruct (kinded_boat _ _ (HP w Hw)) as [b Hb].
  rewrite move_agent_spec. unfold boat_at in Hb.
  destruct (out_of_bounds (grid w) p) eqn:Hp; [reflexivity|].
  rewrite Hb. simpl.
  destruct (out_of_bounds (grid w) (b_pos b)) eqn:Hq; [reflexivity|].
  destruct (list_mem id (cell (grid w) (b_pos b))) eqn:Hm; [|reflexivity].
  apply rtc_once. apply be_move; auto.
Qed.

Lemma effects_Boat_able_to_return id :
  effects (Boat_effect id) (fun _ => True) (Boat_able_to_return id).
Proof. unfold Boat_able_to_return. eff_b id. Qed.

Lemma effects_Boat_catch_loop id neighbors :
  effects (Boat_effect id) (kinded KBoat id) (Boat_catch_loop id neighbors).
Proof.
  induction neighbors as [|n rest IH]; simpl.
  - apply effects_ret.
  - apply effects_bind;
      [apply (stable_kinded _ (Boat_sub id)) | apply effects_get_agent | intros a].
    destruct a as [|l| | |]; try exact IH.
    destruct (l_state l); [|exact IH].
    apply effects_seq; [apply effects_move_boat; auto|]. intros ?.
    apply effects_seq; [apply effects_update_boat; intros; auto|]. intros ?.
    apply effects_seq; [apply effects_catch_lobster|]. intros ?. apply effects_ret.
Qed.

Lemma effects_Boat_catch id :
  effects (Boat_effect id) (fun _ => True) (Boat_catch id).
Proof.
  unfold Boat_catch. eff_b id.
  eapply effects_weaken; [|apply effects_Boat_catch_loop]. simpl. tauto.
Qed.

Lemma effects_Boat_random_move_try id :
  effects (Boat_effect id) (fun _ => True) (Boat_random_move_try id).
Proof.
  unfold Boat_random_move_try. eff_b id.
  - apply effects_random_choice_boat.
  - apply effects_move_boat. tauto.
Qed.

Lemma effects_Boat_random_move fuel id :
  effects (Boat_effect id) (fun _ => True) (Boat_random_move fuel id).
Proof.
  induction fuel as [|fuel IH]; intros w _; simpl; [exact I|].
  pose proof (effects_Boat_random_move_try id w I) as H.
  destruct (Boat_random_move_try id w) as [[] w'|e w'|]; auto.
  specialize (IH w' I). destruct (Boat_random_move fuel id w'); auto; etrans; eauto.
Qed.

Lemma effects_Boat_smart_move id :
  effects (Boat_effect id) (fun _ => True) (Boat_smart_move id).
Proof. unfold Boat_smart_move. eff_b id. apply effects_move_boat. tauto. Qed.

Lemma effects_Boat_return_home id :
  effects (Boat_effect id) (fun _ => True) (Boat_return_home id).
Proof.
  unfold Boat_return_home. eff_b id.
  - apply effects_shuffle_from_boat.
  - apply effects_move_boat. tauto.
Qed.

Lemma effects_Boat_step fuel id :
  effects (Boat_effect id) (fun _ => True) (Boat_step fuel id).
Proof.
  unfold Boat_step.
  apply effects_seq; [apply effects_update_boat; intros; auto|]. intros ?.
  apply effects_get_boat; intros b. destruct (b_state b).
  - match goal with |- effects _ _ (if ?c then _ else _) => destruct c end.
    + apply effects_seq.
      { match goal with |- effects _ _ (if ?c then _ else _) => destruct c end.
        - eapply effects_weaken; [|apply effects_Boat_smart_move]. intros; exact I.
        - eapply effects_weaken; [|apply effects_Boat_random_move]. intros; exact I. }
      intros ?. apply effects_seq; [apply effects_Boat_catch|]. intros c.
      destruct c; [|apply effects_ret].
      apply effects_seq; [apply effects_Boat_able_to_return|]. intros r.
      destruct r; [|apply effects_ret]. apply effects_update_boat; intros; auto.
    + apply effects_seq; [|intros ?]; apply effects_update_boat; intros; auto.
  - apply effects_get_home; intros home.
    match goal with |- effects _ _ (if ?c then _ else _) => destruct c end.
    + apply effects_seq.
      { destruct (negb (b_unable b)); [apply effects_update_boat; intros; auto|].
        apply effects_ret. }
      intros ?. apply effects_get_boat_at; intros b1.
      apply effects_seq; [|intros ?; apply effects_update_boat; intros; auto].
      destruct (b_size b1); apply effects_modify; intros w [_ Hb].
      * apply be_small. exact Hb.
      * apply be_big. exact Hb.
    + eapply effects_weaken; [|apply effects_Boat_return_home]. intros; exact I.
Qed.

(** *** Heat spots *)

Lemma effects_update_heat_spot P id f :
  (forall s, hs_pos (f s) = hs_pos s) ->
  effects (Heat_Spot_effect id) P (update_heat_spot id f).
Proof.
  intros Hf w _. unfold update_heat_spot, bind, get_heat_spot, bind, get_agent.
  destruct (objects w !! id) as [[]|] eqn:Ha; simpl; try reflexivity.
  apply rtc_once. apply he_write with (s := s); auto.
Qed.

Lemma effects_move_heat_spot (P : World -> Prop) id p :
  (forall w, P w -> kinded KHeat_Spot id w) ->
  effects (Heat_Spot_effect id) P (move_agent id p).
Proof.
  intros HP w Hw. destruct (kinded_heat_spot _ _ (HP w Hw)) as [s Hs].
  rewrite move_agent_spec. unfold heat_spot_at in Hs.
  destruct (out_of_bounds (grid w) p) eqn:Hp; [reflexivity|].
  rewrite Hs. simpl.
  destruct (out_of_bounds (grid w) (hs_pos s)) eqn:Hq; [reflexivity|].
  destruct (list_mem id (cell (grid w) (hs_pos s))) eqn:Hm; [|reflexivity].
  apply rtc_once. apply he_move; auto.
Qed.

Lemma effects_Heat_Spot_step id :
  effects (Heat_Spot_effect id) (fun _ => True) (Heat_Spot_step id).
Proof.
  unfold Heat_Spot_step.
  apply effects_seq; [apply effects_update_heat_spot; intros; auto|]. intros ?.
  apply effects_get_heat_spot; intros s.
  destruct (hs_turn s mod 5 =? 0); [|apply effects_ret].
  apply effects_seq; [apply effects_move_heat_spot; tauto|]. intros ?.
  apply effects_seq; [|intros ?]; apply effects_update_heat_spot; intros; auto.
Qed.

(** *** The scheduler and [World.step] *)

Lemma effects_Agent_step fuel id :
  effects Agent_effect (fun _ => True) (Agent_step fuel id).
Proof.
  unfold Agent_step. intros w _. unfold bind, get_agent.
  destruct (objects w !! id) as [[]|]; try (cbn; reflexivity).
  - apply (effects_sub _ _ _ _ Lobster_sub (effects_Lobster_step fuel id) w I).
  - apply (effects_sub _ _ _ _ (Boat_sub id) (effects_Boat_step fuel id) w I).
  - apply (effects_sub _ _ _ _ (Heat_Spot_sub id) (effects_Heat_Spot_step id) w I).
Qed.

Lemma effects_mfor_true {A} R (l : list A) (f : A -> M unit) :
  (forall x, effects R (fun _ => True) (f x)) -> effects R (fun _ => True) (mfor l f).
Proof.
  intros Hf. induction l as [|x l IH]; simpl.
  - apply effects_ret.
  - apply effects_seq; auto.
Qed.

Lemma effects_pass fuel ids :
  effects Agent_effect (fun _ => True) (mfor ids (Agent_step fuel)).
Proof. apply effects_mfor_true. apply effects_Agent_step. Qed.

Lemma effects_advance ids :
  effects Tail_effect (fun _ => True) (mfor ids (fun id => _ <- get_agent id ;; ret tt)).
Proof.
  apply effects_mfor_true. intros id. apply effects_seq; [apply effects_get_agent|].
  intros ?. apply effects_ret.
Qed.

Lemma effects_World_count_lobster :
  effects Tail_effect (fun _ => True) World_count_lobster.
Proof.
  unfold World_count_lobster.
  apply effects_seq; [apply effects_modify; intros; constructor|]. intros ?.
  apply effects_seq; [apply effects_gets|]. intros wd.
  apply effects_seq; [apply effects_gets|]. intros ht.
  apply effects_mfor_true; intros x. apply effects_mfor_true; intros y.
  apply effects_seq.
  { unfold get_cell_list_contents1. apply effects_seq; [apply effects_gets|].
    intros g. destruct (out_of_bounds g (x, y)); [apply effects_raise|apply effects_ret]. }
  intros ids. apply effects_mfor_true; intros n.
  apply effects_seq; [apply effects_get_agent|]. intros ag.
  destruct ag as [|l| | |]; try apply effects_ret.
  destruct (l_state l); [|apply effects_ret].
  apply effects_modify; intros; constructor.
Qed.

Lemma effects_collect : effects Tail_effect (fun _ => True) collect.
Proof. apply effects_modify; intros; constructor. Qed.

Lemma effects_bank_all agents :
  effects Tail_effect (fun _ => True)
    (mfor agents (fun id =>
       a <- get_agent id ;;
       match a with ABoat _ => Boat_in_storage id | _ => ret tt end)).
Proof.
  apply effects_mfor_true; intros id.
  apply effects_seq; [apply effects_get_agent|]. intros ag.
  destruct ag as [| |b| |]; try apply effects_ret.
  unfold Boat_in_storage. apply effects_get_boat_at; intros b1.
  apply effects_modify. intros w [_ Hb]. eapply te_storage. exact Hb.
Qed.

Lemma effects_lift_agent {A} (m : M A) :
  effects Agent_effect (fun _ => True) m -> effects World_effect (fun _ => True) m.
Proof. apply effects_sub. apply we_agent. Qed.

Lemma effects_lift_tail {A} (m : M A) :
  effects Tail_effect (fun _ => True) m -> effects World_effect (fun _ => True) m.
Proof. apply effects_sub. apply we_tail. Qed.

Lemma effects_World_tail :
  effects Tail_effect (fun _ => True)
    (World_count_lobster ;;
     collect ;;
     t <- gets (fun w => s_time (schedule w)) ;;
     n <- gets sim_length ;;
     if t =? n then
       agents <- gets (fun w => s_agents (schedule w)) ;;
       mfor agents (fun id =>
         a <- get_agent id ;;
         match a with ABoat _ => Boat_in_storage id | _ => ret tt end) ;;
       collect ;;
       modify (set_running false)
     else ret tt).
Proof.
  apply effects_seq; [apply effects_World_count_lobster|]. intros ?.
  apply effects_seq; [apply effects_collect|]. intros ?.
  apply effects_seq; [apply effects_gets|]. intros t.
  apply effects_seq; [apply effects_gets|]. intros n.
  destruct (t =? n); [|apply effects_ret].
  apply effects_seq; [apply effects_gets|]. intros agents.
  apply effects_seq; [apply effects_bank_all|]. intros ?.
  apply effects_seq; [apply effects_collect|]. intros ?.
  apply effects_modify; intros; constructor.
Qed.

Lemma effects_Scheduler_tail agent_keys :
  effects Tail_effect (fun _ => True)
    (mfor agent_keys (fun id => _ <- get_agent id ;; ret tt) ;;
     modify (fun w =>
       set_schedule (mkScheduler (s_agents (schedule w)) (s_steps (schedule w) + 1)
                                 (s_time (schedule w) + 1)) w)).
Proof.
  apply effects_seq; [apply effects_advance|]. intros ?.
  apply effects_modify; intros; constructor.
Qed.

Lemma effects_World_step fuel :
  effects World_effect (fun _ => True) (World_step fuel).
Proof.
  unfold World_step.
  apply effects_seq.
  - unfold Scheduler_step.
    apply effects_seq; [apply effects_gets|]. intros agent_keys.
    apply effects_seq; [apply effects_lift_agent, effects_pass|]. intros ?.
    apply effects_lift_tail, effects_Scheduler_tail.
  - intros ?. apply effects_lift_tail, effects_World_tail.
Qed.

Lemma effects_World_steps fuel n :
  effects World_effect (fun _ => True) (World_steps fuel n).
Proof.
  induction n as [|n IH]; simpl.
  - apply effects_ret.
  - apply effects_seq; [apply effects_World_step|]. intros ?. exact IH.
Qed.

(** An invariant of every effect is an invariant of the computation. *)
Lemma effects_preserves {A} R (I : World -> Prop) (m : M A) :
  effects R (fun _ => True) m ->
  (forall w w', R w w' -> I w -> I w') ->
  preserves I m.
Proof.
  intros Hm HI w Hw. specialize (Hm w Logic.I).
  destruct (m w); auto; eapply stable_rtc; eauto.
Qed.

Lemma In_list_remove x id l : In x (list_remove id l) -> In x l.
Proof.
  induction l as [|y l IH]; simpl; [tauto|].
  destruct (id =? y); simpl; tauto.
Qed.

Lemma In_list_remove_NoDup x id l :
  NoDup l -> (In x (list_remove id l) <-> x <> id /\ In x l).
Proof.
  induction 1 as [|y l Hy Hl IH]; simpl; [tauto|].
  rewrite list_elem_of_In in Hy.
  destruct (Z.eqb_spec id y) as [->|Hne]; simpl.
  - split; [intros Hx; split; [intros ->; tauto | tauto] | intros [? [?|?]]; congruence].
  - rewrite IH. split; [intros [->|[? ?]]; auto | intros [? [->|?]]; auto].
Qed.

Lemma NoDup_list_remove id l : NoDup l -> NoDup (list_remove id l).
Proof.
  induction 1 as [|y l Hy Hl IH]; simpl; [constructor|].
  destruct (id =? y); [exact Hl|]. constructor; [|exact IH].
  rewrite list_elem_of_In in *. intros H. apply Hy. eapply In_list_remove; eauto.
Qed.

Lemma cell_set_cell g p l q :
  cell (set_cell g p l) q = if decide (p = q) then l else cell g q.
Proof.
  unfold cell, set_cell. simpl. destruct (decide (p = q)) as [->|Hne].
  - rewrite lookup_insert_eq. reflexivity.
  - rewrite lookup_insert_ne by exact Hne. reflexivity.
Qed.

Lemma agent_pos_set_pos a p : agent_pos (agent_set_pos a p) = p.
Proof. destruct a; reflexivity. Qed.

Lemma well_formed_frame w w' :
  objects w' = objects w -> grid w' = grid w -> current_id w' = current_id w ->
  s_agents (schedule w') = s_agents (schedule w) ->
  well_formed w -> well_formed w'.
Proof.
  intros Ho Hg Hc Hs [H1 H2 H3 H4 H5 H6].
  split; rewrite ?Ho, ?Hg, ?Hc, ?Hs; auto.
Qed.

Lemma well_formed_write w id a a' :
  objects w !! id = Some a -> agent_pos a' = agent_pos a ->
  well_formed w -> well_formed (set_objects (<[id := a']> (objects w)) w).
Proof.
  intros Ha Hp [H1 H2 H3 H4 H5 H6]. split; simpl; auto.
  - intros id' b. destruct (decide (id' = id)) as [->|Hne].
    + rewrite lookup_insert_eq. intros [= <-]. rewrite Hp. auto.
    + rewrite lookup_insert_ne by congruence. auto.
  - intros p id' Hin. destruct (H2 p id' Hin) as (b & Hb & Hbp).
    destruct (decide (id' = id)) as [->|Hne].
    + rewrite lookup_insert_eq. exists a'. split; [reflexivity|]. congruence.
    + rewrite lookup_insert_ne by congruence. eauto.
  - intros id'. rewrite <- H4. rewrite lookup_insert_is_Some.
    split; [intros [->|[_ ?]]; eauto | auto].
    destruct (decide (id = id')); auto.
Qed.

Lemma well_formed_moved w id a p :
  objects w !! id = Some a ->
  out_of_bounds (grid w) p = false ->
  well_formed w -> well_formed (moved id a p w).
Proof.
  intros Ha Hp [H1 H2 H3 H4 H5 H6].
  set (q := agent_pos a).
  set (g1 := set_cell (grid w) q (list_remove id (cell (grid w) q))).
  assert (Hg1 : forall r x, In x (cell g1 r) <-> x <> id /\ In x (cell (grid w) r)).
  { intros r x. unfold g1. rewrite cell_set_cell. destruct (decide (q = r)) as [<-|Hne].
    - apply In_list_remove_NoDup. apply H3.
    - split; [|tauto]. intros Hx. split; [|exact Hx]. intros ->.
      destruct (H2 r id Hx) as (b & Hb & Hbp). unfold q in Hne. congruence. }
  assert (Hn1 : forall r, NoDup (cell g1 r)).
  { intros r. unfold g1. rewrite cell_set_cell. destruct (decide (q = r)); auto.
    apply NoDup_list_remove. apply H3. }
  assert (Hcell : forall r, cell (grid (moved id a p w)) r
                            = if decide (p = r) then cell g1 p ++ [id] else cell g1 r).
  { intros r. unfold moved, moved_grid. simpl. fold q. fold g1. apply cell_set_cell. }
  assert (Hin : forall r x, In x (cell (grid (moved id a p w)) r)
                            <-> (x = id /\ r = p) \/ (x <> id /\ In x (cell (grid w) r))).
  { intros r x. rewrite Hcell. destruct (decide (p = r)) as [<-|Hne].
    - rewrite in_app_iff, Hg1. simpl. split.
      + intros [?|[->|[]]]; auto.
      + intros [[-> _]|?]; auto.
    - rewrite Hg1. split; [auto|]. intros [[_ ->]|?]; [congruence|auto]. }
  split.
  - intros id' b. simpl. destruct (decide (id' = id)) as [->|Hne].
    + rewrite lookup_insert_eq. intros [= <-]. rewrite agent_pos_set_pos.
      split; [exact Hp|]. apply Hin. auto.
    + rewrite lookup_insert_ne by congruence. intros Hb.
      destruct (H1 id' b Hb) as [Hb1 Hb2]. split; [exact Hb1|]. apply Hin. auto.
  - intros r x Hx. apply Hin in Hx. simpl. destruct Hx as [[-> ->]|[Hne Hx]].
    + rewrite lookup_insert_eq. eexists. split; [reflexivity|]. apply agent_pos_set_pos.
    + rewrite lookup_insert_ne by congruence. auto.
  - intros r. rewrite Hcell. destruct (decide (p = r)); [|apply Hn1].
    apply NoDup_app. split; [apply Hn1|]. split; [|apply NoDup_singleton].
    intros x Hx1 Hx2. apply list_elem_of_In in Hx1. apply Hg1 in Hx1.
    apply list_elem_of_In in Hx2. simpl in Hx2. destruct Hx1 as [Hne _].
    destruct Hx2 as [->|[]]. congruence.
  - intros id'. simpl. rewrite <- H4. rewrite lookup_insert_is_Some.
    split; [intros [<-|[_ ?]]; eauto | auto].
    destruct (decide (id = id')); auto.
  - exact H5.
  - exact H6.
Qed.

Lemma well_formed_Agent_effect w w' : Agent_effect w w' -> well_formed w -> well_formed w'.
Proof.
  intros [w1 w2 H|b w1 w2 H|s w1 w2 H] Hw; inversion H; subst;
    first [ eapply well_formed_moved; eassumption
          | eapply well_formed_write; [eassumption | | eassumption]; (assumption || reflexivity)
          | eapply well_formed_frame; [| | | | eassumption]; reflexivity ].
Qed.

Lemma well_formed_World_effect w w' : World_effect w w' -> well_formed w -> well_formed w'.
Proof.
  intros [w1 w2 H|w1 w2 H] Hw; [eapply well_formed_Agent_effect; eauto|].
  inversion H; subst; (eapply well_formed_frame; [| | | | eassumption]; reflexivity).
Qed.

Lemma builds_ret {A} P (a : A) (Q : A -> Prop) : Q a -> builds P (ret a) Q.
Proof. intros H w. simpl. split; [reflexivity|exact H]. Qed.

Lemma builds_weaken {A} (P P' : World -> Prop) (m : M A) (Q Q' : A -> Prop) :
  (forall w, P w -> P' w) -> (forall a, Q' a -> Q a) -> builds P' m Q' -> builds P m Q.
Proof.
  intros H HQ Hm w. specialize (Hm w). destruct (m w); auto.
  destruct Hm. split; auto.
Qed.

Lemma builds_bind {A B} P (m : M A) (f : A -> M B) (Q : A -> Prop) (R : B -> Prop) :
  stable Init_effect P -> builds P m Q -> (forall a, Q a -> builds P (f a) R) ->
  builds P (bind m f) R.
Proof.
  intros HS Hm Hf w. unfold bind. specialize (Hm w).
  destruct (m w) as [a w'| |]; auto. destruct Hm as [Hm Ha].
  specialize (Hf a Ha w'). destruct (f a w'); auto.
  - destruct Hf. split; [etrans; eauto | auto].
  - intros Hw. apply Hf. eapply stable_rtc; eauto.
Qed.

Lemma builds_gets {A B} (P : World -> Prop) (f : World -> A) (k : A -> M B) R :
  (forall x, builds (fun w => P w /\ f w = x) (k x) R) -> builds P (bind (gets f) k) R.
Proof.
  intros Hk w. unfold bind, gets. specialize (Hk (f w) w).
  destruct (k (f w) w); auto.
Qed.

Lemma builds_mfor {A} P (l : list A) (f : A -> M unit) :
  stable Init_effect P -> (forall x, In x l -> builds P (f x) (fun _ => True)) ->
  builds P (mfor l f) (fun _ => True).
Proof.
  intros HS. induction l as [|x l IH]; intros Hf; simpl.
  - apply builds_ret. exact I.
  - eapply builds_bind; [exact HS | apply Hf; left; reflexivity |].
    intros ? ?. apply IH. intros y Hy. apply Hf. right. exact Hy.
Qed.

Lemma builds_draw P : builds P draw (fun _ => True).
Proof. intros w. simpl. split; [|exact I]. apply rtc_once. constructor. Qed.

Lemma builds_random_random P :
  stable Init_effect P -> builds P random_random (fun _ => True).
Proof.
  intros HS. unfold random_random. eapply builds_bind; [exact HS|apply builds_draw|].
  intros d ?. apply builds_ret. exact I.
Qed.

Lemma builds_random_randint (P : World -> Prop) a b :
  stable Init_effect P -> (forall w, P w -> a <= b) ->
  builds P (random_randint a b) (fun x => a <= x <= b).
Proof.
  intros HS Hab. unfold random_randint. destruct (Z.ltb_spec b a) as [Hlt|Hle].
  - intros w. simpl. intros Hw. specialize (Hab w Hw). lia.
  - eapply builds_bind; [exact HS|apply builds_draw|]. intros d ?. apply builds_ret.
    pose proof (Z.mod_pos_bound d (b - a + 1)). lia.
Qed.

(** Registering an object the way [World.__init__] does. *)
Lemma register_spec {B} a p (k : Z -> M B) w :
  agent_set_pos a p = a ->
  (id <- new_object (ret a) ;; place_agent id p ;; Scheduler_add id ;; k id) w
  = if out_of_bounds (grid w) p
    then Raise IndexError (set_objects (<[current_id w + 1 := a]> (objects w))
                                       (set_current_id (current_id w + 1) w))
    else k (current_id w + 1) (spawned a w).
Proof.
  intros Ha. unfold new_object, next_id, put_agent, place_agent, _place_agent.
  unfold bind, modify, gets, ret. simpl.
  destruct (out_of_bounds (grid w) p) eqn:Hp; [reflexivity|].
  unfold update_agent, bind, get_agent, put_agent, modify. simpl.
  rewrite lookup_insert_eq. simpl. rewrite Ha, insert_insert_eq.
  unfold Scheduler_add, modify. simpl. unfold spawned.
  replace (agent_pos a) with p by (rewrite <- Ha; symmetry; apply agent_pos_set_pos).
  reflexivity.
Qed.

Lemma register_unit_spec a p w :
  agent_set_pos a p = a ->
  (id <- new_object (ret a) ;; place_agent id p ;; Scheduler_add id) w
  = if out_of_bounds (grid w) p
    then Raise IndexError (set_objects (<[current_id w + 1 := a]> (objects w))
                                       (set_current_id (current_id w + 1) w))
    else Ok tt (spawned a w).
Proof.
  intros Ha. unfold new_object, next_id, put_agent, place_agent, _place_agent.
  unfold bind, modify, gets, ret. simpl.
  destruct (out_of_bounds (grid w) p) eqn:Hp; [reflexivity|].
  unfold update_agent, bind, get_agent, put_agent, modify. simpl.
  rewrite lookup_insert_eq. simpl. rewrite Ha, insert_insert_eq.
  unfold Scheduler_add, modify. simpl. unfold spawned.
  replace (agent_pos a) with p by (rewrite <- Ha; symmetry; apply agent_pos_set_pos).
  reflexivity.
Qed.

Lemma builds_spawn (P : World -> Prop) a (m : M unit) :
  initial a ->
  (forall w, P w -> out_of_bounds (grid w) (agent_pos a) = false) ->
  (forall w, m w = if out_of_bounds (grid w) (agent_pos a)
                   then Raise IndexError
                          (set_objects (<[current_id w + 1 := a]> (objects w))
                                       (set_current_id (current_id w + 1) w))
                   else Ok tt (spawned a w)) ->
  builds P m (fun _ => True).
Proof.
  intros Ha HP Hm w. rewrite Hm.
  destruct (out_of_bounds (grid w) (agent_pos a)) eqn:Hp.
  - intros Hw. rewrite (HP w Hw) in Hp. discriminate.
  - split; [|exact I]. apply rtc_once. apply ie_spawn; auto.
Qed.

Lemma builds_new_Ocean (P : World -> Prop) p :
  (forall w, P w -> out_of_bounds (grid w) p = false) ->
  builds P (new_Ocean p) (fun _ => True).
Proof.
  intros HP. apply builds_spawn with (a := AOcean (mkOcean p)); [exact I|exact HP|].
  intros w. apply register_unit_spec. reflexivity.
Qed.

Lemma builds_new_Heat_Spot (P : World -> Prop) x :
  (forall w, P w -> out_of_bounds (grid w) (x, 3) = false) ->
  builds P (new_Heat_Spot (x, 3)) (fun _ => True).
Proof.
  intros HP.
  apply builds_spawn with (a := AHeat_Spot (mkHeat_Spot true (x, 3) 4 0 [0; 1; 2; 3; 4]));
    [simpl; auto|exact HP|].
  intros w. apply register_unit_spec. reflexivity.
Qed.

Lemma builds_new_Home (P : World -> Prop) p :
  (forall w, P w -> out_of_bounds (grid w) p = false) ->
  builds P (new_Home p) (fun _ => True).
Proof.
  intros HP w. unfold new_Home.
  rewrite (register_spec (AHome (mkHome p 0 "big")) p ret w eq_refl).
  destruct (out_of_bounds (grid w) p) eqn:Hp.
  - intros Hw. rewrite (HP w Hw) in Hp. discriminate.
  - simpl. split; [|exact I]. apply rtc_once. apply ie_spawn; [exact Hp|reflexivity].
Qed.

Lemma register_lobster_spec p w :
  (id <- new_object (timer <- random_randint 0 10 ;;
                     ret (ALobster (mkLobster p Wander true timer 0 [0] [] 0))) ;;
   place_agent id p ;; Scheduler_add id) w
  = let w1 := set_rand (tl (rand w)) w in
    let a := ALobster (mkLobster p Wander true (0 + hd 0 (rand w) mod (10 - 0 + 1))
                                 0 [0] [] 0) in
    if out_of_bounds (grid w) p
    then Raise IndexError (set_objects (<[current_id w + 1 := a]> (objects w1))
                                       (set_current_id (current_id w + 1) w1))
    else Ok tt (spawned a w1).
Proof.
  unfold new_object, next_id, put_agent, place_agent, _place_agent, random_randint, draw.
  unfold bind, modify, gets, ret. simpl.
  destruct (out_of_bounds (grid w) p) eqn:Hp; [reflexivity|].
  unfold update_agent, bind, get_agent, put_agent, modify. simpl.
  rewrite lookup_insert_eq. simpl. rewrite insert_insert_eq.
  reflexivity.
Qed.

Lemma register_boat_spec home p r w :
  (id <- new_object (ret (ABoat (mkBoat home p Small Search true 0 0 false))) ;;
   d <- gets density ;;
   (if Qltb r d then update_boat id (fun b => Boat_set_size b Small)
    else if Qltb d r then update_boat id (fun b => Boat_set_size b Big)
    else ret tt) ;;
   place_agent id p ;; Scheduler_add id) w
  = let a := ABoat (mkBoat home p (boat_size_drawn r (density w)) Search true 0 0 false) in
    if out_of_bounds (grid w) p
    then Raise IndexError (set_objects (<[current_id w + 1 := a]> (objects w))
                                       (set_current_id (current_id w + 1) w))
    else Ok tt (spawned a w).
Proof.
  unfold new_object, next_id, put_agent, place_agent, _place_agent, boat_size_drawn.
  unfold bind, modify, gets, ret. simpl.
  destruct (Qltb r (density w)); [|destruct (Qltb (density w) r)];
    unfold update_boat, bind, get_boat, bind, get_agent, put_agent, modify, ret; simpl;
    rewrite ?lookup_insert_eq; simpl;
    (destruct (out_of_bounds (grid w) p) eqn:Hp;
     [rewrite ?insert_insert_eq; reflexivity|]);
    unfold update_agent, bind, get_agent, put_agent, modify; simpl;
    rewrite lookup_insert_eq; simpl; rewrite ?insert_insert_eq; reflexivity.
Qed.

Lemma Init_effect_frame w w' :
  Init_effect w w' ->
  g_width (grid w') = g_width (grid w) /\ g_height (grid w') = g_height (grid w) /\
  height w' = height w /\ width w' = width w /\ density w' = density w /\
  sim_length w' = sim_length w.
Proof. intros H. inversion H; subst; simpl; auto 10. Qed.

Lemma stable_roomy n : stable Init_effect (roomy n).
Proof.
  intros w w' H. destruct (Init_effect_frame _ _ H) as (H1 & H2 & H3 & H4 & _).
  unfold roomy. rewrite H1, H2, H3, H4. auto.
Qed.

Lemma stable_eq {A} (f : World -> A) (x : A) :
  (forall w w', Init_effect w w' -> f w' = f w) -> stable Init_effect (fun w => f w = x).
Proof. intros Hf w w' H <-. apply Hf. exact H. Qed.

Lemma out_of_bounds_false g p :
  out_of_bounds g p = false <-> 0 <= p.1 < g_width g /\ 0 <= p.2 < g_height g.
Proof.
  unfold out_of_bounds. rewrite !orb_false_iff, !Z.ltb_ge, !Z.leb_gt. lia.
Qed.

Lemma builds_new_Lobster n :
  0 < n -> builds (roomy n) new_Lobster (fun _ => True).
Proof.
  intros Hn. unfold new_Lobster. apply builds_gets. intros h.
  assert (HS : stable Init_effect (fun w => roomy n w /\ height w = h)).
  { apply stable_and; [apply stable_roomy|]. apply stable_eq.
    intros w w' H. apply Init_effect_frame in H. tauto. }
  eapply builds_bind; [exact HS | apply builds_random_randint; [exact HS|] |].
  { intros w [(_ & _ & ? & _) <-]. lia. }
  intros nx Hnx.
  eapply builds_bind; [exact HS | apply builds_random_randint; [exact HS|] |].
  { intros w [(_ & _ & ? & _) <-]. lia. }
  intros ny Hny. intros w. rewrite register_lobster_spec. cbv zeta.
  destruct (out_of_bounds (grid w) (nx, ny)) eqn:Hp.
  - intros [(H1 & H2 & H3 & H4 & H5) <-].
    assert (out_of_bounds (grid w) (nx, ny) = false) as Hf; [|congruence].
    apply out_of_bounds_false. simpl. cbv beta in *. specialize (H5 Hn). lia.
  - split; [|exact I]. eapply rtc_l; [apply ie_rand|]. apply rtc_once.
    apply ie_spawn; [exact Hp|]. simpl. auto.
Qed.

Lemma builds_new_Boat n P1 P2 P3 :
  builds (roomy n) (new_Boat P1 P2 P3) (fun _ => True).
Proof.
  unfold new_Boat. apply builds_gets. intros wd.
  assert (HS : stable Init_effect (fun w => roomy n w /\ width w = wd)).
  { apply stable_and; [apply stable_roomy|]. apply stable_eq.
    intros w w' H. apply Init_effect_frame in H. tauto. }
  eapply builds_bind; [exact HS | apply builds_random_randint; [exact HS|] |].
  { intros w [(_ & _ & ? & ? & _) <-]. lia. }
  intros nx Hnx.
  eapply builds_bind; [exact HS | apply builds_random_randint; [exact HS|] |].
  { intros; lia. }
  intros ny Hny.
  eapply builds_bind; [exact HS | apply builds_random_random; exact HS |]. intros r _.
  eapply builds_bind; [exact HS | apply builds_random_random; exact HS |]. intros x _.
  intros w. rewrite register_boat_spec. cbv zeta.
  destruct (out_of_bounds (grid w) (nx, ny)) eqn:Hp.
  - intros [(H1 & H2 & H3 & H4 & H5) <-].
    assert (out_of_bounds (grid w) (nx, ny) = false) as Hf; [|congruence].
    apply out_of_bounds_false. simpl. cbv beta in *. lia.
  - split; [|exact I]. apply rtc_once. apply ie_spawn; [exact Hp|]. simpl. auto.
Qed.

Lemma builds_World_init_body num_lobsters num_boats :
  builds (roomy num_lobsters) (World_init_body num_lobsters num_boats) (fun _ => True).
Proof.
  pose proof (stable_roomy num_lobsters) as HS.
  assert (Hport : forall x, 0 <= x < 40 ->
            builds (roomy num_lobsters) (new_Home (x, 0)) (fun _ => True)).
  { intros x Hx. apply builds_new_Home. intros w (H1 & H2 & H3 & H4 & H5).
    apply out_of_bounds_false. simpl. lia. }
  unfold World_init_body.
  eapply builds_bind; [exact HS | apply Hport; lia |]. intros Port1 _.
  eapply builds_bind; [exact HS | apply Hport; lia |]. intros Port2 _.
  eapply builds_bind; [exact HS | apply Hport; lia |]. intros Port3 _.
  apply builds_gets. intros g.
  apply builds_weaken with
    (P' := fun w => roomy num_lobsters w /\
                    (g_width (grid w), g_height (grid w)) = (g_width g, g_height g))
    (Q' := fun _ => True); [intros w [? <-]; auto | auto |].
  assert (HS' : stable Init_effect
                  (fun w => roomy num_lobsters w /\
                    (g_width (grid w), g_height (grid w)) = (g_width g, g_height g))).
  { apply stable_and; [exact HS|]. apply stable_eq.
    intros w w' H. apply Init_effect_frame in H. destruct H as (-> & -> & _). reflexivity. }
  eapply builds_bind; [exact HS' | |].
  { apply builds_mfor; [exact HS'|]. intros x Hx.
    apply builds_mfor; [exact HS'|]. intros y Hy.
    apply builds_new_Ocean. intros w [_ [= Hw Hh]].
    apply range_in_bounds in Hx, Hy. apply out_of_bounds_false. simpl. lia. }
  intros ? _.
  apply builds_weaken with (P' := roomy num_lobsters) (Q' := fun _ => True);
    [tauto | auto |].
  apply builds_gets. intros wd.
  assert (HS2 : stable Init_effect (fun w => roomy num_lobsters w /\ width w = wd)).
  { apply stable_and; [exact HS|]. apply stable_eq.
    intros w w' H. apply Init_effect_frame in H. tauto. }
  eapply builds_bind; [exact HS2 | |].
  { apply builds_mfor; [exact HS2|]. intros i Hi.
    apply builds_new_Heat_Spot. intros w [(H1 & H2 & H3 & H4 & H5) <-].
    apply range_in_bounds in Hi. apply out_of_bounds_false. simpl. lia. }
  intros ? _.
  apply builds_weaken with (P' := roomy num_lobsters) (Q' := fun _ => True);
    [tauto | auto |].
  eapply builds_bind; [exact HS | |].
  { apply builds_mfor; [exact HS|]. intros i Hi. apply builds_new_Boat. }
  intros ? _.
  eapply builds_bind; [exact HS | |].
  { apply builds_mfor; [exact HS|]. intros i Hi. apply builds_new_Lobster.
    apply range_in_bounds in Hi. lia. }
  intros ? _. intros w. simpl. split; [|exact I]. apply rtc_once. constructor.
Qed.

Lemma World_init_blank height width num_lobsters num_boats movement density sim_length
    tape model_tape :
  World_init height width num_lobsters num_boats movement density sim_length
             tape model_tape
  = World_init_body num_lobsters num_boats
      (blank height width density sim_length tape model_tape).
Proof. reflexivity. Qed.

(** An invariant of [World.__init__]. *)
Lemma World_init_invariant (J : World -> Prop) height width num_lobsters num_boats
    movement density sim_length tape model_tape w :
  (forall w w', Init_effect w w' -> J w -> J w') ->
  J (blank height width density sim_length tape model_tape) ->
  World_init height width num_lobsters num_boats movement density sim_length
             tape model_tape = Ok tt w ->
  J w.
Proof.
  intros HJ H0 Hw. rewrite World_init_blank in Hw.
  pose proof (builds_World_init_body num_lobsters num_boats
                (blank height width density sim_length tape model_tape)) as H.
  rewrite Hw in H. destruct H as [H _]. eapply stable_rtc; eauto.
Qed.

Lemma World_init_returns height width num_lobsters num_boats movement density sim_length
    tape model_tape :
  40 <= height -> 4 <= width <= height -> (0 < num_lobsters -> height <= width) ->
  exists w,
    World_init height width num_lobsters num_boats movement density sim_length
               tape model_tape = Ok tt w.
Proof.
  intros H1 H2 H3. rewrite World_init_blank.
  pose proof (builds_World_init_body num_lobsters num_boats
                (blank height width density sim_length tape model_tape)) as H.
  destruct (World_init_body _ _ _) as [[] w| |].
  - eauto.
  - exfalso. apply H. unfold roomy, blank. simpl. auto.
  - destruct H.
Qed.

Lemma well_formed_spawned a w :
  out_of_bounds (grid w) (agent_pos a) = false ->
  well_formed w -> well_formed (spawned a w).
Proof.
  intros Hp [H1 H2 H3 H4 H5 H6].
  set (id := current_id w + 1). set (p := agent_pos a).
  assert (Hnew : objects w !! id = None).
  { destruct (objects w !! id) eqn:E; [|reflexivity].
    assert (is_Some (objects w !! id)) as Hs by eauto. apply H4 in Hs. unfold id in Hs. lia. }
  assert (Hfree : forall r, ~ In id (cell (grid w) r)).
  { intros r Hr. destruct (H2 r id Hr) as (b & Hb & _). congruence. }
  assert (Hcell : forall r, cell (grid (spawned a w)) r
                            = if decide (p = r) then cell (grid w) p ++ [id]
                              else cell (grid w) r).
  { intros r. unfold spawned. simpl. apply cell_set_cell. }
  split.
  - intros id' b. simpl. fold id. rewrite Hcell.
    destruct (decide (id' = id)) as [->|Hne].
    + rewrite lookup_insert_eq. intros [= <-]. split; [exact Hp|]. fold p.
      rewrite decide_True by reflexivity. apply in_app_iff. right. left. reflexivity.
    + rewrite lookup_insert_ne by congruence. intros Hb.
      destruct (H1 id' b Hb) as [Hb1 Hb2]. split; [exact Hb1|].
      destruct (decide (p = agent_pos b)) as [->|]; [|exact Hb2].
      apply in_app_iff. left. exact Hb2.
  - intros r x. rewrite Hcell. simpl. fold id. intros Hx.
    assert (x = id /\ r = p \/ x <> id /\ In x (cell (grid w) r)) as [[-> ->]|[Hne Hx']].
    { destruct (decide (p = r)) as [<-|Hne].
      - apply in_app_iff in Hx. destruct Hx as [Hx|[<-|[]]]; auto.
        right. split; [|exact Hx]. intros ->. exact (Hfree _ Hx).
      - right. split; [|exact Hx]. intros ->. exact (Hfree _ Hx). }
    + rewrite lookup_insert_eq. eauto.
    + rewrite lookup_insert_ne by congruence. auto.
  - intros r. rewrite Hcell. destruct (decide (p = r)); [|apply H3].
    apply NoDup_app. split; [apply H3|]. split; [|apply NoDup_singleton].
    intros x Hx1 Hx2. apply list_elem_of_In in Hx1, Hx2. destruct Hx2 as [<-|[]].
    exact (Hfree _ Hx1).
  - intros id'. simpl. fold id. rewrite lookup_insert_is_Some, H4. unfold id.
    destruct (decide (current_id w + 1 = id')); lia.
  - simpl. lia.
  - simpl. rewrite H6. rewrite (seqZ_app 1 (current_id w) 1) by lia.
    replace (1 + current_id w) with (current_id w + 1) by lia. reflexivity.
Qed.

Lemma well_formed_Init_effect w w' : Init_effect w w' -> well_formed w -> well_formed w'.
Proof.
  intros H Hw. inversion H; subst.
  - eapply well_formed_frame; [| | | | eassumption]; reflexivity.
  - apply well_formed_spawned; assumption.
  - eapply well_formed_frame; [| | | | eassumption]; reflexivity.
Qed.

Lemma well_formed_blank height width density sim_length tape model_tape :
  well_formed (blank height width density sim_length tape model_tape).
Proof.
  split; simpl.
  - intros id a. rewrite lookup_empty. discriminate.
  - intros p id. unfold cell. simpl. rewrite lookup_empty. simpl. tauto.
  - intros p. unfold cell. simpl. rewrite lookup_empty. simpl. constructor.
  - intros id. rewrite lookup_empty. split; [intros []; discriminate | lia].
  - lia.
  - reflexivity.
Qed.

(** An invariant of everything a [World] does holds wherever a run stops. *)
Lemma run_invariant (J : World -> Prop) fuel n w w' :
  (forall w w', World_effect w w' -> J w -> J w') ->
  J w -> ends (World_steps fuel n w) w' -> J w'.
Proof.
  intros HJ Hw He. pose proof (effects_World_steps fuel n w I) as H.
  destruct (World_steps fuel n w); simpl in He; try contradiction; subst;
    eapply stable_rtc; eauto.
Qed.

Lemma well_formed_run height width num_lobsters num_boats movement density sim_length
    tape model_tape fuel n w0 w :
  World_init height width num_lobsters num_boats movement density sim_length
             tape model_tape = Ok tt w0 ->
  ends (World_steps fuel n w0) w ->
  well_formed w.
Proof.
  intros H0 Hn. eapply run_invariant; [apply well_formed_World_effect| |exact Hn].
  eapply World_init_invariant; [apply well_formed_Init_effect| |exact H0].
  apply well_formed_blank.
Qed.
